(** * Token-sequence packing and re-slicing (runs/gptneo/c4_sequence_packing.py)

    A shallow embedding of [map_to_batch] (sequence splitter, first-fit
    decreasing packer, block construction, shard writes) and of
    [process_rest] (the re-slicer), with the properties of the
    specification stated and proved over it.

    Conventions.
    - Token ids, lengths and free capacities are Python integers: [Z].
      Positions inside a list and indices into [tokenized] are [nat].
    - A tensor of shape (rows, columns) is the list of its rows.  The
      conversions of [torch.tensor] to [int32] (token ids) and [int16]
      (positions) are exact on the values the script builds: token ids
      of the vocabulary and positions below [BLOCK_SIZE = 512].  Rows
      are therefore plain lists of [Z]; the model stands for the script
      as long as positions stay below 32768.
    - The tokenizer is external: [raw_tokenized], [eos_token_id] and
      [split_value] are inputs of the model. *)

From Stdlib Require Import ZArith List Arith Lia Bool Permutation Sorted.
From Equations Require Import Equations.
Import ListNotations.


(** The two module constants of the script. *)
Definition BLOCK_SIZE_c4 : Z := 512.

(** [len(t)] as a Python integer. *)
Definition len {A : Type} (t : list A) : Z := Z.of_nat (length t).

(** Python slices [t[:n]] and [t[n:]] for [0 <= n]. *)
Definition upto {A : Type} (n : nat) (t : list A) : list A := firstn n t.
Definition from {A : Type} (n : nat) (t : list A) : list A := skipn n t.

(** [list(range(n))]; empty when [n <= 0]. *)
Definition range (n : Z) : list Z := map Z.of_nat (seq 0 (Z.to_nat n)).

Definition inspect {A : Type} (a : A) : {b : A | a = b} := exist _ a eq_refl.

(** ** Sequence splitter (lines 34-50) *)

Section SplitterCode.

Variable BLOCK_SIZE : Z.
Variable eos_token_id : Z.
Variable split_value : Z.

(** [np.argwhere(np.array(t) == split_value)]: the positions of [t]
    holding the boundary token, in increasing order. *)
Fixpoint argwhere_from (i : nat) (t : list Z) : list nat :=
  match t with
  | [] => []
  | x :: r =>
      if (x =? split_value)%Z then i :: argwhere_from (S i) r
      else argwhere_from (S i) r
  end.

Definition argwhere (t : list Z) : list nat := argwhere_from 0 t.

(** [(dot_pos < (BLOCK_SIZE - 1)) * dot_pos]: a position at or past
    [BLOCK_SIZE - 1] is replaced by 0. *)
Definition masked (p : nat) : nat :=
  if (Z.of_nat p <? BLOCK_SIZE - 1)%Z then p else 0.

(** [np.max] of the masked positions (all are non-negative). *)
Definition masked_max (dot_pos : list nat) : nat :=
  fold_right Nat.max 0 (map masked dot_pos).

(** The [while len(t) > BLOCK_SIZE-1] loop of the [else] branch.  Each
    element of the result is one pair appended to [tokenized] and
    [lengths].  The loop ends when the remainder is short enough
    (condition false) or holds no boundary token ([break]); the code
    appends nothing after the loop. *)
Equations? split_loop (t : list Z) : list (list Z * Z)
  by wf (length t) lt :=
  split_loop t with inspect (BLOCK_SIZE - 1 <? len t)%Z := {
    | exist _ false _ := [];
    | exist _ true _ with inspect (argwhere t) := {
        | exist _ [] _ := [];
        | exist _ (d :: ds) Hdots :=
            let split_pos := masked_max (d :: ds) in
            (upto split_pos t ++ [eos_token_id], (Z.of_nat split_pos + 1)%Z)
              :: split_loop (from (S split_pos) t) } }.
Proof.
  destruct t as [|x r]; [discriminate Hdots |].
  unfold from. rewrite length_skipn. simpl. lia.
Qed.

(** The body of [for t in raw_tokenized]. *)
Definition split_one (t : list Z) : list (list Z * Z) :=
  if (len t <=? BLOCK_SIZE - 1)%Z
  then [(t ++ [eos_token_id], (len t + 1)%Z)]
  else split_loop t.

(** The whole [for] loop: the pairs appended to [tokenized] and
    [lengths], in order. *)
Definition split_batch (raw_tokenized : list (list Z)) : list (list Z * Z) :=
  flat_map split_one raw_tokenized.

Definition tokenized_of (raw_tokenized : list (list Z)) : list (list Z) :=
  map fst (split_batch raw_tokenized).

Definition lengths_of (raw_tokenized : list (list Z)) : list Z :=
  map snd (split_batch raw_tokenized).

End SplitterCode.

(** ** Packer: first-fit decreasing (lines 52-75) *)

(** A pair [(length, index)]. *)
Definition item : Type := (Z * nat)%type.

(** [[(l, i) for i, l in enumerate(lengths)]]. *)
Fixpoint enumerate_from (i : nat) (lengths : list Z) : list item :=
  match lengths with
  | [] => []
  | l :: r => (l, i) :: enumerate_from (S i) r
  end.

(** [sorted(..., key=lambda x: x[0], reverse=True)].  Python's sort is
    stable, also with [reverse=True]: elements with equal keys keep their
    original order.  An element is inserted in front of the sorted rest of
    the list, before the first element whose key is not larger. *)
Fixpoint insert_desc (x : item) (l : list item) : list item :=
  match l with
  | [] => [x]
  | y :: r =>
      if (fst y <=? fst x)%Z then x :: y :: r else y :: insert_desc x r
  end.

Definition sorted_desc (l : list item) : list item :=
  fold_right insert_desc [] l.

Definition indexed_lengths (lengths : list Z) : list item :=
  sorted_desc (enumerate_from 0 lengths).

(** The two parallel lists [bins] and [bin_space]. *)
Record packing : Type := Packing {
  bins : list (list item);
  bin_space : list Z
}.

(** The scan [for i in range(len(bins))]: the first bin with
    [bin_space[i] >= length] takes the item; [None] when the scan ends
    with [placed = False]. *)
Fixpoint first_fit (bs : list (list item)) (sp : list Z) (it : item)
  : option packing :=
  match bs, sp with
  | b :: bs', s :: sp' =>
      if (fst it <=? s)%Z
      then Some (Packing ((b ++ [it]) :: bs') ((s - fst it)%Z :: sp'))
      else match first_fit bs' sp' it with
           | Some p => Some (Packing (b :: bins p) (s :: bin_space p))
           | None => None
           end
  | _, _ => None
  end.

Section PackerCode.

Variable BLOCK_SIZE : Z.
Variable SLICE_SIZE : nat.
Variable eos_token_id : Z.

(** The body of [for length, index in indexed_lengths]. *)
Definition place (p : packing) (it : item) : packing :=
  match first_fit (bins p) (bin_space p) it with
  | Some p' => p'
  | None => Packing (bins p ++ [[it]]) (bin_space p ++ [(BLOCK_SIZE - fst it)%Z])
  end.

Definition pack_items (its : list item) : packing :=
  fold_left place its (Packing [] []).

Definition pack (lengths : list Z) : packing :=
  pack_items (indexed_lengths lengths).

(** ** Block construction (lines 82-112) *)

(** [combined_ids] and [combined_pos] of one bin. *)
Definition combined_ids (tokenized : list (list Z)) (_bin : list item) : list Z :=
  flat_map (fun it : item => nth (snd it) tokenized []) _bin.

Definition combined_pos (_bin : list item) : list Z :=
  flat_map (fun it : item => range (fst it)) _bin.

(** [F.pad(x, (0, pad_len), value=v)] under the guard [pad_len > 0]. *)
Definition pad (x : list Z) (pad_len : Z) (v : Z) : list Z :=
  if (0 <? pad_len)%Z then x ++ repeat v (Z.to_nat pad_len) else x.

(** The pair [(ids_tensor, pos_tensor)] built for one bin; [pad_len] is
    computed from the token array alone. *)
Definition build_block (tokenized : list (list Z)) (_bin : list item)
  : list Z * list Z :=
  let ids := combined_ids tokenized _bin in
  let pos := combined_pos _bin in
  let pad_len := (BLOCK_SIZE - len ids)%Z in
  (pad ids pad_len eos_token_id, pad pos pad_len 0%Z).

End PackerCode.

(** ** Shard files *)

(** The file names the script builds under [data_path]:
    [train_{idx[0]}_{slice_counter}_safetensor.snappy],
    [train_{idx[0]}_rest_safetensor.snappy] and
    [train_{counter}_safetensor.snappy]. *)
Inductive path : Type :=
| SliceFile (idx0 slice_counter : nat)
| RestFile (idx0 : nat)
| ResliceFile (counter : nat).

Definition path_eqb (p q : path) : bool :=
  match p, q with
  | SliceFile i c, SliceFile j d => Nat.eqb i j && Nat.eqb c d
  | RestFile i, RestFile j => Nat.eqb i j
  | ResliceFile c, ResliceFile d => Nat.eqb c d
  | _, _ => false
  end.

Definition is_rest (p : path) : bool :=
  match p with RestFile _ => true | _ => false end.

(** The dictionary stored in a shard file. *)
Record tensor_dict : Type := TensorDict {
  input_ids : list (list Z);
  position_ids : list (list Z)
}.

(** All rows of a tensor have the same number of columns. *)
Definition same_width (rows : list (list Z)) : bool :=
  match rows with
  | [] => true
  | r :: rs => forallb (fun r' => Nat.eqb (length r') (length r)) rs
  end.

(** [torch.stack]: [None] is the RuntimeError raised for an empty list or
    for tensors of different sizes. *)
Definition stack (tensors : list (list Z)) : option (list (list Z)) :=
  match tensors with
  | [] => None
  | _ => if same_width tensors then Some tensors else None
  end.

(** [torch.cat(buffer, dim=0)]: [None] is the RuntimeError raised when the
    column counts differ. *)
Definition cat (buffer : list (list (list Z))) : option (list (list Z)) :=
  if same_width (concat buffer) then Some (concat buffer) else None.

(** ** Shard writes of the Packer (lines 78-80, 111-136) *)

Record writer : Type := Writer {
  out_input_ids : list (list Z);
  out_position_ids : list (list Z);
  slice_counter : nat;
  saved : list (path * tensor_dict)
}.

Section WriterCode.

Variable BLOCK_SIZE : Z.
Variable SLICE_SIZE : nat.
Variable eos_token_id : Z.
Variable tokenized : list (list Z).
Variable idx0 : nat.

(** One iteration of [for _bin in bins]; [None] when [torch.stack]
    raises. *)
Definition bin_step (w : writer) (_bin : list item) : option writer :=
  let blk := build_block BLOCK_SIZE eos_token_id tokenized _bin in
  let ids := out_input_ids w ++ [fst blk] in
  let pos := out_position_ids w ++ [snd blk] in
  if Nat.eqb (length ids) SLICE_SIZE then
    match stack ids, stack pos with
    | Some i, Some p =>
        Some (Writer [] [] (S (slice_counter w))
                (saved w ++ [(SliceFile idx0 (slice_counter w), TensorDict i p)]))
    | _, _ => None
    end
  else Some (Writer ids pos (slice_counter w) (saved w)).

Fixpoint bin_loop (w : writer) (bs : list (list item)) : option writer :=
  match bs with
  | [] => Some w
  | _bin :: r =>
      match bin_step w _bin with
      | Some w' => bin_loop w' r
      | None => None
      end
  end.

(** The final [if len(out_input_ids) > 0]: the rest shard. *)
Definition flush_rest (w : writer) : option (list (path * tensor_dict)) :=
  if Nat.ltb 0 (length (out_input_ids w)) then
    match stack (out_input_ids w), stack (out_position_ids w) with
    | Some i, Some p => Some (saved w ++ [(RestFile idx0, TensorDict i p)])
    | _, _ => None
    end
  else Some (saved w).

(** Lines 52-136 on given [tokenized] and [lengths]: the files written,
    in order, or [None] when an exception leaves the function. *)
Definition pack_and_save (lengths : list Z) : option (list (path * tensor_dict)) :=
  match bin_loop (Writer [] [] 0 []) (bins (pack BLOCK_SIZE lengths)) with
  | Some w => flush_rest w
  | None => None
  end.

End WriterCode.

(** [map_to_batch] after tokenization; [idx0] is [idx[0]]. *)
Definition map_to_batch (BLOCK_SIZE : Z) (SLICE_SIZE : nat)
  (eos_token_id split_value : Z) (raw_tokenized : list (list Z)) (idx0 : nat)
  : option (list (path * tensor_dict)) :=
  pack_and_save BLOCK_SIZE SLICE_SIZE eos_token_id
    (tokenized_of BLOCK_SIZE eos_token_id split_value raw_tokenized) idx0
    (lengths_of BLOCK_SIZE eos_token_id split_value raw_tokenized).

(** ** Re-slicer: [process_rest] (lines 138-190) *)

(** The directory [data_path]: the content of each file, if it exists. *)
Definition disk : Type := path -> option tensor_dict.

(** [snappy_safetensor(tensor_dict, file_path)]: create or overwrite. *)
Definition disk_write (d : disk) (p : path) (v : tensor_dict) : disk :=
  fun q => if path_eqb q p then Some v else d q.

(** [os.remove(file)]. *)
Definition disk_remove (d : disk) (p : path) : disk :=
  fun q => if path_eqb q p then None else d q.

(** [l.pop()]: the last element and the list without it. *)
Definition pop {A : Type} (l : list A) : option (A * list A) :=
  match rev l with
  | [] => None
  | x :: r => Some (x, rev r)
  end.

(** Where the run stands: at the test of the outer [while], or at the test
    of the inner [while] with [file] being drained. *)
Inductive control : Type :=
| AtFiles
| AtSlices (file : path).

(** The variables of [process_rest], the directory, and the shards passed
    to [snappy_safetensor] so far, oldest first. *)
Record reslicer : Type := Reslicer {
  all_files : list path;
  input_buffer : list (list (list Z));
  pos_buffer : list (list (list Z));
  buffer_length : nat;
  counter : nat;
  fs : disk;
  emitted : list tensor_dict;
  pc : control
}.

Inductive outcome : Type :=
| Continue (s : reslicer)
| Return (s : reslicer)
| Raise.

Section ReslicerCode.

Variable SLICE_SIZE : nat.

(** From the test of the outer loop to the first test of the inner one
    (lines 146-159). *)
Definition take_file (s : reslicer) : outcome :=
  match pop (all_files s) with
  | None => Return s
  | Some (file, rest) =>
      match fs s file with
      | None => Raise
      | Some tensor_dict =>
          let new_input := input_ids tensor_dict in
          let new_pos := position_ids tensor_dict in
          Continue (Reslicer rest
                      (input_buffer s ++ [new_input])
                      (pos_buffer s ++ [new_pos])
                      (buffer_length s + length new_input)
                      (counter s) (fs s) (emitted s) (AtSlices file))
      end
  end.

(** One test of the inner loop: either one pass through its body
    (lines 163-189) or, when the test fails, [os.remove(file)]
    (line 190). *)
Definition slice_or_remove (s : reslicer) (file : path) : outcome :=
  if Nat.leb SLICE_SIZE (buffer_length s) then
    match cat (input_buffer s), cat (pos_buffer s) with
    | Some full_input, Some full_pos =>
        let out_dict :=
          TensorDict (upto SLICE_SIZE full_input) (upto SLICE_SIZE full_pos) in
        let remainder_input := from SLICE_SIZE full_input in
        let remainder_pos := from SLICE_SIZE full_pos in
        Continue (Reslicer (all_files s)
                    [remainder_input] [remainder_pos]
                    (length remainder_input)
                    (S (counter s))
                    (disk_write (fs s) (ResliceFile (counter s)) out_dict)
                    (emitted s ++ [out_dict])
                    (AtSlices file))
    | _, _ => Raise
    end
  else
    match fs s file with
    | None => Raise
    | Some _ =>
        Continue (Reslicer (all_files s) (input_buffer s) (pos_buffer s)
                    (buffer_length s) (counter s)
                    (disk_remove (fs s) file) (emitted s) AtFiles)
    end.

Definition step (s : reslicer) : outcome :=
  match pc s with
  | AtFiles => take_file s
  | AtSlices file => slice_or_remove s file
  end.

(** [n] steps from [s], or fewer when the function returns or raises. *)
Fixpoint run (n : nat) (s : reslicer) : outcome :=
  match n with
  | O => Continue s
  | S n' =>
      match step s with
      | Continue s' => run n' s'
      | halted => halted
      end
  end.

(** The state on entry of [process_rest(all_files)]. *)
Definition start (d : disk) (files : list path) : reslicer :=
  Reslicer files [] [] 0 0 d [] AtFiles.

(** The states a run from [s] goes through. *)
Inductive reaches (s : reslicer) : reslicer -> Prop :=
| reaches_here : reaches s s
| reaches_step (s1 s2 : reslicer) :
    reaches s s1 -> step s1 = Continue s2 -> reaches s s2.

(** Rows read from the files still to be popped, in pop order. *)
Definition pending (d : disk) (files : list path) (proj : tensor_dict -> list (list Z))
  : list (list Z) :=
  flat_map (fun f => match d f with Some td => proj td | None => [] end) (rev files).

(** An upper bound on the number of steps left, for [0 < SLICE_SIZE]:
    two per file to pop, one per Block buffered or still in a file, one to
    leave the inner loop. *)
Definition steps_left (d : disk) (s : reslicer) : nat :=
  2 * length (all_files s) + buffer_length s
  + length (pending d (all_files s) input_ids)
  + match pc s with AtFiles => 0 | AtSlices _ => 1 end.

(** [process_rest(all_files)] on directory [d], followed for
    [steps_left + 1] steps.  The result [Continue] says that the loops
    have not ended by then (with [SLICE_SIZE = 0] the inner loop never
    ends); [run_returns] and [run_stable] show that for [0 < SLICE_SIZE]
    the run has returned and that more steps change nothing. *)
Definition process_rest (d : disk) (files : list path) : outcome :=
  run (S (steps_left d (start d files))) (start d files).

End ReslicerCode.


(** * Definitions used in the statements *)

(** The sequence of scenario 3 with distinct ordinary tokens. *)
Definition scenario3_tokens : list Z :=
  [100; 101; 102; 103; 13; 105; 106; 107; 108; 13;
   110; 111; 112; 113; 114; 13; 116; 117; 118; 119]%Z.

(** The order the Packer takes the sequences in: longer first, and among
    sequences of equal length the one that comes first in the batch. *)
Definition before (x y : item) : Prop :=
  (fst y < fst x)%Z \/ (fst x = fst y /\ snd x < snd y).

(** Bins with their free capacity, in creation order. *)
Definition with_space (p : packing) : list (list item * Z) :=
  combine (bins p) (bin_space p).

(** Section 4.2, step 2 of the specification, on bins given with their
    free capacity: the item goes to the first bin whose free capacity is
    at least its length; if none fits, a new bin is opened at the end with
    free capacity [BLOCK_SIZE - length]. *)
Inductive first_fit_step (BLOCK_SIZE : Z) (it : item)
  : list (list item * Z) -> list (list item * Z) -> Prop :=
| fits_first (pre post : list (list item * Z)) (b : list item) (s : Z) :
    Forall (fun bs => (snd bs < fst it)%Z) pre ->
    (fst it <= s)%Z ->
    first_fit_step BLOCK_SIZE it
      (pre ++ (b, s) :: post)
      (pre ++ (b ++ [it], (s - fst it)%Z) :: post)
| opens_new (all : list (list item * Z)) :
    Forall (fun bs => (snd bs < fst it)%Z) all ->
    first_fit_step BLOCK_SIZE it all (all ++ [([it], (BLOCK_SIZE - fst it)%Z)]).

(** Step 2 repeated over the items in the order given. *)
Inductive first_fit_steps (BLOCK_SIZE : Z)
  : list item -> list (list item * Z) -> list (list item * Z) -> Prop :=
| steps_done (st : list (list item * Z)) :
    first_fit_steps BLOCK_SIZE [] st st
| steps_next (it : item) (its : list item) (st st1 st2 : list (list item * Z)) :
    first_fit_step BLOCK_SIZE it st st1 ->
    first_fit_steps BLOCK_SIZE its st1 st2 ->
    first_fit_steps BLOCK_SIZE (it :: its) st st2.

(** Section 4.2, steps 1 and 2: a run of the Packer on [lengths] sorts the
    indexed lengths, longest first and ties in original order, and applies
    step 2 to each in turn, starting without bins. *)
Definition packer_run (BLOCK_SIZE : Z) (lengths : list Z)
  (final : list (list item * Z)) : Prop :=
  exists order : list item,
    Permutation order (enumerate_from 0 lengths)
    /\ StronglySorted before order
    /\ first_fit_steps BLOCK_SIZE order [] final.

(** Occupied length of a bin: the recorded lengths of its members. *)
Definition occupied (b : list item) : Z :=
  fold_right Z.add 0%Z (map fst b).

(** Offsets, inside a Block, at which the members of a bin start. *)
Fixpoint starts_from (off : nat) (b : list item) : list nat :=
  match b with
  | [] => []
  | it :: r => off :: starts_from (off + Z.to_nat (fst it)) r
  end.

(** The packing state whose bins and free capacities are those of [st]. *)
Definition unzip (st : list (list item * Z)) : packing :=
  Packing (map fst st) (map snd st).

(** The Blocks of a shard: its rows, token array with position array. *)
Definition rows (td : tensor_dict) : list (list Z * list Z) :=
  combine (input_ids td) (position_ids td).

(** The recorded length of an item is the length of the sequence its index
    points to. *)
Definition consistent (tokenized : list (list Z)) (it : item) : Prop :=
  fst it = len (nth (snd it) tokenized []).

(** What a writer has put in files or holds for the next file, in order. *)
Definition written (w : writer) : list (list Z * list Z) :=
  concat (map (fun f => rows (snd f)) (saved w))
  ++ combine (out_input_ids w) (out_position_ids w).

(** A writer whose pending token and position arrays go in pairs of rows
    of [width] entries. *)
Definition writer_ok (width : nat) (w : writer) : Prop :=
  length (out_input_ids w) = length (out_position_ids w)
  /\ Forall (fun r => length r = width) (out_input_ids w)
  /\ Forall (fun r => length r = width) (out_position_ids w)
  /\ Forall (fun f => length (input_ids (snd f)) = length (position_ids (snd f)))
       (saved w).

(** A shard as the Packer writes it: as many position rows as token rows,
    all of [width] entries. *)
Definition shard_ok (width : nat) (td : tensor_dict) : Prop :=
  length (input_ids td) = length (position_ids td)
  /\ Forall (fun r => length r = width) (input_ids td)
  /\ Forall (fun r => length r = width) (position_ids td).

(** The argument of [process_rest] as [__main__] builds it: distinct
    existing files of the directory with "rest" in their name, each
    holding a shard. *)
Definition leftovers_ok (width : nat) (d : disk) (files : list path) : Prop :=
  NoDup files
  /\ forall f, In f files ->
       is_rest f = true /\ exists td, d f = Some td /\ shard_ok width td.

(** Every leftover shard holds fewer than [SLICE_SIZE] Blocks. *)
Definition small_leftovers (SLICE_SIZE : nat) (d : disk) (files : list path) : Prop :=
  forall f td, In f files -> d f = Some td -> length (input_ids td) < SLICE_SIZE.

(** What holds of every state of a run of [process_rest] started on
    directory [d0] with the list [files0]. *)
Record reslicing (SLICE_SIZE width : nat) (d0 : disk) (files0 : list path)
  (s : reslicer) : Prop := Reslicing {
  still_listed : exists popped, files0 = all_files s ++ popped;
  still_on_disk : forall f, In f (all_files s) -> fs s f = d0 f;
  being_drained :
    match pc s with
    | AtFiles => True
    | AtSlices file =>
        In file files0 /\ fs s file <> None /\ ~ In file (all_files s)
    end;
  count_is_length : buffer_length s = length (concat (input_buffer s));
  pos_follows : length (concat (pos_buffer s)) = length (concat (input_buffer s));
  input_width : Forall (fun r => length r = width) (concat (input_buffer s));
  pos_width : Forall (fun r => length r = width) (concat (pos_buffer s));
  input_kept :
    concat (map input_ids (emitted s)) ++ concat (input_buffer s)
      ++ pending d0 (all_files s) input_ids
    = pending d0 files0 input_ids;
  pos_kept :
    concat (map position_ids (emitted s)) ++ concat (pos_buffer s)
      ++ pending d0 (all_files s) position_ids
    = pending d0 files0 position_ids;
  full_shards :
    Forall (fun td => length (input_ids td) = SLICE_SIZE
                      /\ length (position_ids td) = SLICE_SIZE) (emitted s);
  drained : pc s = AtFiles -> buffer_length s < SLICE_SIZE;
  counter_is_emitted : counter s = length (emitted s);
  shards_on_disk :
    forall c, c < counter s -> fs s (ResliceFile c) = nth_error (emitted s) c;
  removed :
    forall f, In f files0 -> ~ In f (all_files s) -> pc s <> AtSlices f ->
              fs s f = None;
  bounded :
    small_leftovers SLICE_SIZE d0 files0 -> buffer_length s + 2 <= 2 * SLICE_SIZE;
  untouched :
    forall p, ~ In p files0 -> (forall c, c < counter s -> p <> ResliceFile c) ->
              fs s p = d0 p
}.

(** The directory of scenario 2: leftover shard A with 4 Blocks and
    leftover shard B with 5 Blocks, of two entries each. *)
Definition scenario2_disk : disk :=
  fun p =>
    match p with
    | RestFile 0 =>
        Some (TensorDict [[1; 1]; [2; 2]; [3; 3]; [4; 4]]%Z
                         [[0; 1]; [0; 1]; [0; 1]; [0; 1]]%Z)
    | RestFile 1 =>
        Some (TensorDict [[5; 5]; [6; 6]; [7; 7]; [8; 8]; [9; 9]]%Z
                         [[0; 1]; [0; 1]; [0; 1]; [0; 1]; [0; 1]]%Z)
    | _ => None
    end.

(** [process_rest] pops from the end of the list: A first, then B. *)
Definition scenario2_files : list path := [RestFile 1; RestFile 0].

(** The stretch of input a list of cuts accounts for: each piece followed
    by the one token standing at the cut. *)
Fixpoint stretch (cuts : list (list Z * Z)) : list Z :=
  match cuts with
  | [] => []
  | (piece, c) :: r => piece ++ c :: stretch r
  end.

(** Sum of a list of Python integers. *)
Definition total (l : list Z) : Z := fold_right Z.add 0%Z l.

(** The recorded length of the first member of a bin. *)
Definition leader (b : list item) : Z := fst (hd (0%Z, 0) b).

(** A writer of the Packer between two bins: the files saved so far are
    the full shards numbered from 0, each a pair of rectangular tensors of
    [SLICE_SIZE] rows, and fewer than [SLICE_SIZE] Blocks wait for the
    next file. *)
Definition full_shards_saved (SLICE_SIZE idx0 : nat) (w : writer) : Prop :=
  map fst (saved w) = map (SliceFile idx0) (seq 0 (slice_counter w))
  /\ Forall (fun f : path * tensor_dict =>
               length (input_ids (snd f)) = SLICE_SIZE
               /\ length (position_ids (snd f)) = SLICE_SIZE
               /\ same_width (input_ids (snd f)) = true
               /\ same_width (position_ids (snd f)) = true) (saved w)
  /\ length (out_input_ids w) = length (out_position_ids w)
  /\ length (out_input_ids w) < SLICE_SIZE.

(** A directory holding, for each partition, the rest shard that
    [map_to_batch] writes for a batch of the single text 1 2 3, with
    BLOCK_SIZE = 8 and terminator 0. *)
Definition one_text_disk : disk :=
  fun p =>
    match p with
    | RestFile _ =>
        Some (TensorDict [[1; 2; 3; 0; 0; 0; 0; 0]%Z] [[0; 1; 2; 3; 0; 0; 0; 0]%Z])
    | _ => None
    end.

(** A tokenized text of 702 tokens: 300 ordinary tokens, the boundary
    token 13, 300 ordinary tokens, the boundary token, 100 ordinary
    tokens. *)
Definition two_sentence_text : list Z :=
  repeat 7%Z 300 ++ [13%Z] ++ repeat 7%Z 300 ++ [13%Z] ++ repeat 7%Z 100.

(** * Properties *)

(** ** Lists and slices *)

Lemma len_app {A : Type} (a b : list A) : len (a ++ b) = (len a + len b)%Z.
Proof. unfold len. rewrite length_app. lia. Qed.

Lemma len_nonneg {A : Type} (a : list A) : (0 <= len a)%Z.
Proof. unfold len. lia. Qed.

Lemma upto_from {A : Type} (n : nat) (t : list A) : upto n t ++ from n t = t.
Proof. apply firstn_skipn. Qed.

Lemma cut_at {A : Type} (p : nat) (t : list A) (x : A) :
  nth_error t p = Some x -> t = upto p t ++ x :: from (S p) t.
Proof.
  revert t. induction p as [|p IH]; intros [|y r] H; simpl in H; try discriminate.
  - injection H as ->. reflexivity.
  - unfold upto, from in *. simpl. f_equal. apply IH. exact H.
Qed.

Lemma length_upto {A : Type} (p : nat) (t : list A) :
  p <= length t -> length (upto p t) = p.
Proof. intros H. unfold upto. rewrite length_firstn. lia. Qed.

(** ** Splitter *)

Section SplitterFacts.

Variable BLOCK_SIZE : Z.
Variable eos_token_id : Z.
Variable split_value : Z.

Local Abbreviation dots := (argwhere split_value).
Local Abbreviation cut_pos := (masked_max BLOCK_SIZE).
Local Abbreviation loop := (split_loop BLOCK_SIZE eos_token_id split_value).

Lemma argwhere_from_spec (t : list Z) (i p : nat) :
  In p (argwhere_from split_value i t) <->
  i <= p /\ nth_error t (p - i) = Some split_value.
Proof.
  revert i. induction t as [|x r IH]; intros i; simpl.
  - split; [tauto | intros [_ H]]. destruct (p - i); discriminate.
  - destruct (Z.eqb_spec x split_value) as [->|Hne]; simpl; rewrite IH.
    + split.
      * intros [<- | [Hle H]].
        -- rewrite Nat.sub_diag. split; [lia | reflexivity].
        -- split; [lia |]. replace (p - i) with (S (p - S i)) by lia. exact H.
      * intros [Hle H]. destruct (p - i) as [|k] eqn:E.
        -- left. lia.
        -- right. split; [lia |]. replace (p - S i) with k by lia. exact H.
    + split.
      * intros [Hle H]. split; [lia |].
        replace (p - i) with (S (p - S i)) by lia. exact H.
      * intros [Hle H]. destruct (p - i) as [|k] eqn:E.
        -- simpl in H. congruence.
        -- split; [lia |]. replace (p - S i) with k by lia. exact H.
Qed.

Lemma argwhere_spec (t : list Z) (p : nat) :
  In p (dots t) <-> nth_error t p = Some split_value.
Proof.
  unfold argwhere. rewrite argwhere_from_spec, Nat.sub_0_r.
  split; [tauto | intros H; split; [lia | exact H]].
Qed.

(** The masked maximum is 0 or one of the positions below the limit. *)
Lemma masked_max_cases (ds : list nat) :
  cut_pos ds = 0 \/
  (In (cut_pos ds) ds /\ (Z.of_nat (cut_pos ds) < BLOCK_SIZE - 1)%Z).
Proof.
  unfold masked_max.
  induction ds as [|d ds IH]; simpl; [left; reflexivity |].
  destruct (Nat.max_spec (masked BLOCK_SIZE d)
              (fold_right Nat.max 0 (map (masked BLOCK_SIZE) ds))) as [[_ ->] | [_ ->]].
  - destruct IH as [IH | [IH1 IH2]]; [left; exact IH | right; tauto].
  - unfold masked. destruct (Z.ltb_spec (Z.of_nat d) (BLOCK_SIZE - 1)).
    + right. split; [left; reflexivity | assumption].
    + left. reflexivity.
Qed.

Lemma masked_max_upper (ds : list nat) (q : nat) :
  In q ds -> (Z.of_nat q < BLOCK_SIZE - 1)%Z -> q <= cut_pos ds.
Proof.
  unfold masked_max.
  induction ds as [|d ds IH]; simpl; [tauto |].
  intros [-> | Hin] Hq.
  - unfold masked at 1. destruct (Z.ltb_spec (Z.of_nat q) (BLOCK_SIZE - 1)); lia.
  - specialize (IH Hin Hq). lia.
Qed.

(** The position chosen by [np.max] when a boundary token stands before
    the limit: the last such position. *)
Lemma masked_max_last (ds : list nat) (p : nat) :
  In p ds -> (Z.of_nat p < BLOCK_SIZE - 1)%Z ->
  (forall q, In q ds -> (Z.of_nat q < BLOCK_SIZE - 1)%Z -> q <= p) ->
  cut_pos ds = p.
Proof.
  intros Hin Hp Hlast.
  pose proof (masked_max_upper ds p Hin Hp) as Hle.
  destruct (masked_max_cases ds) as [H0 | [H1 H2]].
  - lia.
  - specialize (Hlast _ H1 H2). lia.
Qed.

Lemma split_loop_body (t : list Z) :
  loop t =
  if (BLOCK_SIZE - 1 <? len t)%Z then
    match dots t with
    | [] => []
    | dot_pos =>
        let split_pos := cut_pos dot_pos in
        (upto split_pos t ++ [eos_token_id], (Z.of_nat split_pos + 1)%Z)
          :: loop (from (S split_pos) t)
    end
  else [].
Proof.
  funelim (loop t).
  - rewrite e. reflexivity.
  - rewrite e, e0. reflexivity.
  - rewrite e, Hdots. reflexivity.
Qed.

Lemma split_loop_short (t : list Z) :
  (len t <= BLOCK_SIZE - 1)%Z -> loop t = [].
Proof.
  intros H. rewrite split_loop_body.
  destruct (Z.ltb_spec (BLOCK_SIZE - 1) (len t)); [lia | reflexivity].
Qed.

Lemma split_loop_break (t : list Z) :
  dots t = [] -> loop t = [].
Proof.
  intros H. rewrite split_loop_body, H. destruct (_ <? _)%Z; reflexivity.
Qed.

Lemma split_loop_cut (t : list Z) :
  (BLOCK_SIZE - 1 < len t)%Z -> dots t <> [] ->
  loop t =
  (upto (cut_pos (dots t)) t ++ [eos_token_id],
   (Z.of_nat (cut_pos (dots t)) + 1)%Z)
    :: loop (from (S (cut_pos (dots t))) t).
Proof.
  intros Hlen Hdots. rewrite split_loop_body at 1.
  destruct (Z.ltb_spec (BLOCK_SIZE - 1) (len t)); [| lia].
  destruct (dots t); [congruence | reflexivity].
Qed.

(** The cut position is inside the remainder. *)
Lemma masked_max_in_range (t : list Z) :
  dots t <> [] -> cut_pos (dots t) < length t.
Proof.
  intros Hdots.
  destruct (masked_max_cases (dots t)) as [-> | [Hin _]].
  - destruct t; [exfalso; apply Hdots; reflexivity | simpl; lia].
  - apply argwhere_spec in Hin. apply nth_error_Some. congruence.
Qed.

End SplitterFacts.

Section SplitterCuts.

Variable BLOCK_SIZE : Z.
Variable eos_token_id : Z.
Variable split_value : Z.

Local Abbreviation dots := (argwhere split_value).
Local Abbreviation cut_pos := (masked_max BLOCK_SIZE).
Local Abbreviation loop := (split_loop BLOCK_SIZE eos_token_id split_value).

(** A cut when [p] is the last boundary position below the limit. *)
Lemma cut_at_last_boundary (t : list Z) (p : nat) :
  (BLOCK_SIZE - 1 < len t)%Z ->
  nth_error t p = Some split_value ->
  (Z.of_nat p < BLOCK_SIZE - 1)%Z ->
  (forall q, p < q -> (Z.of_nat q < BLOCK_SIZE - 1)%Z ->
             nth_error t q <> Some split_value) ->
  loop t = (upto p t ++ [eos_token_id], (Z.of_nat p + 1)%Z) :: loop (from (S p) t).
Proof.
  intros Hlen Hp Hlim Hlast.
  assert (Hin : In p (dots t)) by (apply argwhere_spec; exact Hp).
  assert (Hcut : cut_pos (dots t) = p).
  { apply masked_max_last; try assumption.
    intros q Hq Hqlim. apply argwhere_spec in Hq.
    destruct (Nat.le_gt_cases q p) as [Hle | Hgt]; [exact Hle |].
    exfalso. exact (Hlast q Hgt Hqlim Hq). }
  rewrite split_loop_cut; [rewrite Hcut; reflexivity | exact Hlen |].
  intros E. rewrite E in Hin. exact Hin.
Qed.

(** Some boundary below the limit: there is a last one. *)
Lemma last_boundary_exists (t : list Z) (p : nat) :
  nth_error t p = Some split_value ->
  (Z.of_nat p < BLOCK_SIZE - 1)%Z ->
  exists c, p <= c /\ nth_error t c = Some split_value /\
            (Z.of_nat c < BLOCK_SIZE - 1)%Z /\
            (forall q, c < q -> (Z.of_nat q < BLOCK_SIZE - 1)%Z ->
                       nth_error t q <> Some split_value).
Proof.
  intros Hp Hlim.
  assert (Hin : In p (dots t)) by (apply argwhere_spec; exact Hp).
  pose proof (masked_max_upper BLOCK_SIZE (dots t) p Hin Hlim) as Hle.
  destruct (masked_max_cases BLOCK_SIZE (dots t)) as [H0 | [H1 H2]].
  - exists p. repeat split; try assumption; [lia |].
    intros q Hq Hqlim Hqs. apply argwhere_spec in Hqs.
    pose proof (masked_max_upper BLOCK_SIZE (dots t) q Hqs Hqlim). lia.
  - exists (cut_pos (dots t)). repeat split; try assumption.
    + apply argwhere_spec. exact H1.
    + intros q Hq Hqlim Hqs. apply argwhere_spec in Hqs.
      pose proof (masked_max_upper BLOCK_SIZE (dots t) q Hqs Hqlim). lia.
Qed.

Lemma loop_stops_iff (t : list Z) :
  (BLOCK_SIZE - 1 < len t)%Z ->
  (loop t = [] <-> forall p, nth_error t p <> Some split_value).
Proof.
  intros Hlen. split.
  - intros Hnil p Hp. apply argwhere_spec in Hp.
    destruct (dots t) as [|d ds] eqn:E; [exact Hp |].
    rewrite split_loop_cut in Hnil; [discriminate | exact Hlen |].
    rewrite E. discriminate.
  - intros Hno. apply split_loop_break.
    destruct (dots t) as [|d ds] eqn:E; [reflexivity |].
    exfalso. apply (Hno d). apply argwhere_spec. rewrite E. left. reflexivity.
Qed.

End SplitterCuts.

(** C10: a raw sequence of at most BLOCK_SIZE - 1 tokens gives exactly one
    sub-sequence, the tokens followed by the terminator, with recorded
    length one more than the raw length, at most BLOCK_SIZE; whatever the
    tokens are, nothing is searched, cut or dropped.  At raw length
    BLOCK_SIZE - 1 the sub-sequence has BLOCK_SIZE tokens, and packed on
    its own it is a whole Block: no free capacity, no padding. *)
Theorem short_sequence_kept_whole
  (BLOCK_SIZE eos_token_id split_value : Z) (t : list Z) :
  (len t <= BLOCK_SIZE - 1)%Z ->
  split_one BLOCK_SIZE eos_token_id split_value t
    = [(t ++ [eos_token_id], (len t + 1)%Z)]
  /\ len (t ++ [eos_token_id]) = (len t + 1)%Z
  /\ (len t + 1 <= BLOCK_SIZE)%Z
  /\ (len t = (BLOCK_SIZE - 1)%Z ->
      len (t ++ [eos_token_id]) = BLOCK_SIZE
      /\ pack BLOCK_SIZE [(len t + 1)%Z]
         = Packing [[((len t + 1)%Z, 0)]] [0%Z]
      /\ build_block BLOCK_SIZE eos_token_id [t ++ [eos_token_id]]
           [((len t + 1)%Z, 0)]
         = (t ++ [eos_token_id], range BLOCK_SIZE)).
Proof.
  intros Hshort. unfold split_one.
  destruct (Z.leb_spec (len t) (BLOCK_SIZE - 1)) as [_ | Hgt]; [| lia].
  assert (Hlen : len (t ++ [eos_token_id]) = (len t + 1)%Z).
  { rewrite len_app. reflexivity. }
  repeat split; try assumption; try lia.
  - unfold pack, pack_items, indexed_lengths. simpl. unfold place. simpl.
    do 2 f_equal. lia.
  - unfold build_block, combined_ids, combined_pos, pad.
    cbn [flat_map nth snd fst]. rewrite !app_nil_r, Hlen.
    replace (BLOCK_SIZE - (len t + 1))%Z with 0%Z by lia.
    replace (len t + 1)%Z with BLOCK_SIZE by lia. reflexivity.
Qed.

Lemma short_sequence_kept_whole_witness :
  split_one 8 0 13 [1; 2; 13; 4; 5; 6; 7]%Z
  = [([1; 2; 13; 4; 5; 6; 7; 0]%Z, 8%Z)].
Proof.
  assert (Hshort : (len [1; 2; 13; 4; 5; 6; 7]%Z <= 8 - 1)%Z).
  { vm_compute. discriminate. }
  exact (proj1 (short_sequence_kept_whole 8 0 13 [1; 2; 13; 4; 5; 6; 7]%Z Hshort)).
Defined.

(** C4, as stated, fails on the code: the cut piece does not include the
    boundary token, and a boundary token standing exactly at position
    BLOCK_SIZE - 1 is not a cut position.  With BLOCK_SIZE = 8 and boundary
    token 13 at positions 4, 9 and 15 of the 20 tokens of scenario 3, the
    first piece is the four tokens before position 4 and the terminator:
    it is not the five tokens up to and including the boundary followed by
    the terminator, and it holds no boundary token at all.  With boundary
    tokens at positions 2 and 7 of a sequence of 10 tokens, the last
    boundary at or before position BLOCK_SIZE - 1 = 7 is at 7, and the
    code cuts at 2. *)
Lemma cut_includes_boundary_counterexample :
  (nth_error scenario3_tokens 4 = Some 13%Z
   /\ (exists rest,
         split_loop 8 0 13 scenario3_tokens
         = ([100; 101; 102; 103; 0]%Z, 5%Z) :: rest)
   /\ hd [] (map fst (split_loop 8 0 13 scenario3_tokens))
      <> upto 5 scenario3_tokens ++ [0%Z]
   /\ ~ In 13%Z (hd [] (map fst (split_loop 8 0 13 scenario3_tokens))))
  /\
  (nth_error [1; 2; 13; 4; 5; 6; 7; 13; 9; 10]%Z 7 = Some 13%Z
   /\ hd ([], 0%Z) (split_loop 8 0 13 [1; 2; 13; 4; 5; 6; 7; 13; 9; 10]%Z)
      = ([1; 2; 0]%Z, 3%Z)).
Proof.
  split; [split; [reflexivity | split; [| split]] | split; reflexivity].
  - eexists. vm_compute. reflexivity.
  - vm_compute. discriminate.
  - vm_compute. intros H.
    repeat (destruct H as [H | H]; [discriminate H |]). exact H.
Qed.

(** C4 (amended): each cut made by the splitter on a remainder longer than
    BLOCK_SIZE - 1 tokens with a boundary token before position
    BLOCK_SIZE - 1 is at the last boundary-token occurrence strictly before
    position BLOCK_SIZE - 1; the cut piece is the tokens before that
    boundary token with the terminator appended in its place, of recorded
    length cut position + 1, and processing continues on the tokens after
    the boundary token.  In particular, with BLOCK_SIZE = 8 and boundary
    tokens exactly at positions 4, 9 and 15 of a sequence of 20 tokens, the
    first piece is the first 4 tokens and the terminator (length 5) and the
    remainder starts at index 5. *)
Theorem cut_before_last_boundary
  (BLOCK_SIZE eos_token_id split_value : Z) (t : list Z) (p : nat) :
  (BLOCK_SIZE - 1 < len t)%Z ->
  nth_error t p = Some split_value ->
  (Z.of_nat p < BLOCK_SIZE - 1)%Z ->
  (forall q, p < q -> (Z.of_nat q < BLOCK_SIZE - 1)%Z ->
             nth_error t q <> Some split_value) ->
  (split_loop BLOCK_SIZE eos_token_id split_value t
   = (upto p t ++ [eos_token_id], (Z.of_nat p + 1)%Z)
       :: split_loop BLOCK_SIZE eos_token_id split_value (from (S p) t)
   /\ len (upto p t ++ [eos_token_id]) = (Z.of_nat p + 1)%Z
   /\ t = upto p t ++ split_value :: from (S p) t)
  /\
  (forall u : list Z,
     length u = 20 ->
     (forall q, nth_error u q = Some split_value <-> q = 4 \/ q = 9 \/ q = 15) ->
     split_loop 8 eos_token_id split_value u
     = (upto 4 u ++ [eos_token_id], 5%Z)
         :: split_loop 8 eos_token_id split_value (from 5 u)
     /\ length (upto 4 u ++ [eos_token_id]) = 5
     /\ forall k, nth_error (from 5 u) k = nth_error u (5 + k)).
Proof.
  intros Hlen Hp Hlim Hlast. split; [split; [| split] |].
  - apply cut_at_last_boundary; assumption.
  - rewrite len_app. unfold len at 1. rewrite length_upto.
    + reflexivity.
    + apply Nat.lt_le_incl. apply nth_error_Some. congruence.
  - apply cut_at. exact Hp.
  - intros u Hu Hdots. split; [| split].
    + apply (cut_at_last_boundary 8 eos_token_id split_value u 4).
      * unfold len. rewrite Hu. reflexivity.
      * apply Hdots. left. reflexivity.
      * reflexivity.
      * intros q Hq Hq7 Hqs. apply Hdots in Hqs. lia.
    + rewrite length_app, length_upto; [reflexivity | lia].
    + intros k. unfold from. apply nth_error_skipn.
Qed.

Lemma cut_before_last_boundary_witness :
  split_loop 8 0 13 scenario3_tokens
  = (upto 4 scenario3_tokens ++ [0%Z], 5%Z)
      :: split_loop 8 0 13 (from 5 scenario3_tokens).
Proof.
  assert (Hlast : forall q, 4 < q -> (Z.of_nat q < 8 - 1)%Z ->
                            nth_error scenario3_tokens q <> Some 13%Z).
  { intros q Hq Hq7 Hqs.
    assert (Hc : q = 5 \/ q = 6) by lia.
    destruct Hc as [-> | ->]; discriminate Hqs. }
  exact (proj1 (proj1 (cut_before_last_boundary 8 0 13 scenario3_tokens 4
                         eq_refl eq_refl eq_refl Hlast))).
Defined.

(** C3: the code does not do what C3 says.  When the cut made on a
    remainder longer than BLOCK_SIZE - 1 tokens leaves at most
    BLOCK_SIZE - 1 tokens after the boundary token, the loop ends and
    nothing is appended after it: the only sub-sequence emitted is the
    piece before the cut, and the tokens after the cut, of which there is
    at least one, reach no sub-sequence, whether or not they hold a
    boundary token before the limit.  The other branch of the same
    [if] keeps a sequence of that length whole: given the dropped tokens
    as a sequence of their own, the splitter emits them all, followed by
    the terminator. *)
Theorem short_tail_after_cut_dropped
  (BLOCK_SIZE eos_token_id split_value : Z) (t : list Z) (p : nat) :
  (BLOCK_SIZE - 1 < len t)%Z ->
  nth_error t p = Some split_value ->
  (Z.of_nat p < BLOCK_SIZE - 1)%Z ->
  (forall q, p < q -> (Z.of_nat q < BLOCK_SIZE - 1)%Z ->
             nth_error t q <> Some split_value) ->
  (len (from (S p) t) <= BLOCK_SIZE - 1)%Z ->
  t = upto p t ++ split_value :: from (S p) t
  /\ from (S p) t <> []
  /\ split_one BLOCK_SIZE eos_token_id split_value t
     = [(upto p t ++ [eos_token_id], (Z.of_nat p + 1)%Z)]
  /\ split_one BLOCK_SIZE eos_token_id split_value (from (S p) t)
     = [(from (S p) t ++ [eos_token_id], (len (from (S p) t) + 1)%Z)].
Proof.
  intros Hlong Hp Hlim Hlast Hshort.
  split; [apply cut_at; exact Hp | split; [| split]].
  - intros E. apply (f_equal (@length Z)) in E. unfold from in E.
    rewrite length_skipn in E. simpl in E. unfold len in Hlong. lia.
  - unfold split_one.
    destruct (Z.leb_spec (len t) (BLOCK_SIZE - 1)) as [Hle | _]; [lia |].
    rewrite (cut_at_last_boundary BLOCK_SIZE eos_token_id split_value t p
               Hlong Hp Hlim Hlast).
    rewrite (split_loop_short _ _ _ _ Hshort). reflexivity.
  - unfold split_one.
    destruct (Z.leb_spec (len (from (S p) t)) (BLOCK_SIZE - 1)) as [_ | Hgt];
      [reflexivity | lia].
Qed.

Lemma short_tail_after_cut_dropped_witness :
  (BLOCK_SIZE_c4 - 1 < len two_sentence_text)%Z
  /\ from 301 two_sentence_text = repeat 7%Z 300 ++ [13%Z] ++ repeat 7%Z 100
  /\ nth_error (from 301 two_sentence_text) 300 = Some 13%Z
  /\ split_one BLOCK_SIZE_c4 50256 13 two_sentence_text
     = [(upto 300 two_sentence_text ++ [50256%Z], (Z.of_nat 300 + 1)%Z)]
  /\ upto 300 two_sentence_text = repeat 7%Z 300.
Proof.
  assert (Hlast : forall q, 300 < q -> (Z.of_nat q < BLOCK_SIZE_c4 - 1)%Z ->
                            nth_error two_sentence_text q <> Some 13%Z).
  { intros q Hq Hlim Hqs. apply (argwhere_spec 13) in Hqs.
    assert (E : argwhere 13 two_sentence_text = [300; 601]) by (vm_compute; reflexivity).
    rewrite E in Hqs. unfold BLOCK_SIZE_c4 in Hlim.
    destruct Hqs as [<- | [<- | []]]; lia. }
  assert (Hshort : (len (from 301 two_sentence_text) <= BLOCK_SIZE_c4 - 1)%Z).
  { vm_compute. discriminate. }
  split; [reflexivity | split; [vm_compute; reflexivity | split; [reflexivity |]]].
  split; [| vm_compute; reflexivity].
  exact (proj1 (proj2 (proj2
           (short_tail_after_cut_dropped BLOCK_SIZE_c4 50256 13 two_sentence_text 300
              eq_refl eq_refl eq_refl Hlast Hshort)))).
Defined.

(** ** Sorting by length *)

Lemma before_irrefl (x : item) : ~ before x x.
Proof. unfold before. lia. Qed.

Lemma before_trans (x y z : item) : before x y -> before y z -> before x z.
Proof. unfold before. lia. Qed.

Lemma enumerate_from_spec (lengths : list Z) (k i : nat) (l : Z) :
  In (l, i) (enumerate_from k lengths) <->
  k <= i /\ nth_error lengths (i - k) = Some l.
Proof.
  revert k. induction lengths as [|x r IH]; intros k; simpl.
  - split; [tauto | intros [_ H]]. destruct (i - k); discriminate.
  - rewrite IH. split.
    + intros [E | [Hle H]].
      * injection E as -> ->. rewrite Nat.sub_diag. split; [lia | reflexivity].
      * split; [lia |]. replace (i - k) with (S (i - S k)) by lia. exact H.
    + intros [Hle H]. destruct (i - k) as [|n] eqn:E.
      * left. simpl in H. injection H as ->. f_equal. lia.
      * right. split; [lia |]. replace (i - S k) with n by lia. exact H.
Qed.

Lemma enumerate_from_indices (lengths : list Z) (k : nat) :
  StronglySorted (fun x y : item => snd x < snd y) (enumerate_from k lengths).
Proof.
  revert k. induction lengths as [|x r IH]; intros k; simpl; constructor.
  - apply IH.
  - apply Forall_forall. intros [l i] Hin. apply enumerate_from_spec in Hin.
    simpl. lia.
Qed.

Lemma insert_desc_perm (x : item) (l : list item) :
  Permutation (insert_desc x l) (x :: l).
Proof.
  induction l as [|y r IH]; simpl; [reflexivity |].
  destruct (fst y <=? fst x)%Z; [reflexivity |].
  rewrite IH. apply perm_swap.
Qed.

Lemma sorted_desc_perm (l : list item) : Permutation (sorted_desc l) l.
Proof.
  induction l as [|x r IH]; simpl; [reflexivity |].
  rewrite insert_desc_perm. constructor. exact IH.
Qed.

Lemma insert_desc_sorted (x : item) (l : list item) :
  StronglySorted before l ->
  Forall (fun y => snd x < snd y) l ->
  StronglySorted before (insert_desc x l).
Proof.
  induction l as [|y r IH]; intros Hs Hx; simpl.
  - repeat constructor.
  - inversion Hs as [|? ? Hr Hy]; subst. inversion Hx as [|? ? Hxy Hxr]; subst.
    destruct (Z.leb_spec (fst y) (fst x)) as [Hle | Hgt].
    + assert (Hb : before x y) by (unfold before; lia).
      constructor; [exact Hs |]. constructor; [exact Hb |].
      eapply Forall_impl; [| exact Hy]. intros z Hz. eapply before_trans; eassumption.
    + constructor; [apply IH; assumption |].
      apply Forall_forall. intros z Hz.
      apply (Permutation_in _ (insert_desc_perm x r)) in Hz.
      destruct Hz as [<- | Hz].
      * unfold before. lia.
      * rewrite Forall_forall in Hy. apply Hy. exact Hz.
Qed.

Lemma sorted_desc_sorted (l : list item) :
  StronglySorted (fun x y : item => snd x < snd y) l ->
  StronglySorted before (sorted_desc l).
Proof.
  induction l as [|x r IH]; intros Hs; simpl; [constructor |].
  inversion Hs as [|? ? Hr Hx]; subst.
  apply insert_desc_sorted; [apply IH; exact Hr |].
  apply Forall_forall. intros y Hy.
  apply (Permutation_in _ (sorted_desc_perm r)) in Hy.
  rewrite Forall_forall in Hx. apply Hx. exact Hy.
Qed.

Lemma indexed_lengths_perm (lengths : list Z) :
  Permutation (indexed_lengths lengths) (enumerate_from 0 lengths).
Proof. apply sorted_desc_perm. Qed.

Lemma indexed_lengths_sorted (lengths : list Z) :
  StronglySorted before (indexed_lengths lengths).
Proof. apply sorted_desc_sorted. apply enumerate_from_indices. Qed.

(** Two lists in the order [before] with the same elements are equal. *)
Lemma sorted_before_unique (l1 l2 : list item) :
  StronglySorted before l1 -> StronglySorted before l2 ->
  Permutation l1 l2 -> l1 = l2.
Proof.
  revert l2. induction l1 as [|x r IH]; intros l2 H1 H2 Hp.
  - apply Permutation_nil in Hp. symmetry. exact Hp.
  - destruct l2 as [|y r2].
    + symmetry in Hp. apply Permutation_nil in Hp. discriminate.
    + inversion H1 as [|? ? Hr Hx]; subst. inversion H2 as [|? ? Hr2 Hy]; subst.
      assert (Exy : x = y).
      { assert (Hin1 : In x (y :: r2)) by (eapply Permutation_in; [exact Hp | left; reflexivity]).
        assert (Hin2 : In y (x :: r)).
        { eapply Permutation_in; [symmetry; exact Hp | left; reflexivity]. }
        destruct Hin1 as [E | Hin1]; [symmetry; exact E |].
        destruct Hin2 as [E | Hin2]; [exact E |].
        rewrite Forall_forall in Hx, Hy.
        exfalso. apply (before_irrefl x).
        eapply before_trans; [apply Hx; exact Hin2 | apply Hy; exact Hin1]. }
      subst y. f_equal. apply IH; try assumption.
      eapply Permutation_cons_inv. exact Hp.
Qed.

(** In a list in the order [before], an element that is [before] another
    stands to its left. *)
Lemma sorted_before_split (l : list item) (x y : item) :
  StronglySorted before l -> In x l -> In y l -> before x y ->
  exists l1 l2 l3, l = l1 ++ x :: l2 ++ y :: l3.
Proof.
  induction l as [|z r IH]; intros Hs Hx Hy Hxy; [destruct Hx |].
  inversion Hs as [|? ? Hr Hz]; subst. rewrite Forall_forall in Hz.
  destruct Hx as [-> | Hx].
  - destruct Hy as [-> | Hy]; [exfalso; exact (before_irrefl _ Hxy) |].
    apply in_split in Hy. destruct Hy as (l2 & l3 & ->).
    exists [], l2, l3. reflexivity.
  - destruct Hy as [-> | Hy].
    + exfalso. apply (before_irrefl x).
      eapply before_trans; [exact Hxy | apply Hz; exact Hx].
    + destruct (IH Hr Hx Hy Hxy) as (l1 & l2 & l3 & ->).
      exists (z :: l1), l2, l3. reflexivity.
Qed.

(** ** First fit *)

Lemma with_space_unzip (st : list (list item * Z)) : with_space (unzip st) = st.
Proof.
  unfold with_space, unzip. simpl.
  induction st as [|[b s] r IH]; simpl; [reflexivity | rewrite IH; reflexivity].
Qed.

Lemma unzip_app (st1 st2 : list (list item * Z)) :
  unzip (st1 ++ st2)
  = Packing (bins (unzip st1) ++ bins (unzip st2))
            (bin_space (unzip st1) ++ bin_space (unzip st2)).
Proof. unfold unzip. simpl. rewrite !map_app. reflexivity. Qed.

(** The scan of the code against step 2 of the specification. *)
Lemma first_fit_scan (st : list (list item * Z)) (it : item) :
  match first_fit (map fst st) (map snd st) it with
  | Some p' =>
      exists pre post b s,
        st = pre ++ (b, s) :: post
        /\ Forall (fun bs => (snd bs < fst it)%Z) pre
        /\ (fst it <= s)%Z
        /\ p' = unzip (pre ++ (b ++ [it], (s - fst it)%Z) :: post)
  | None => Forall (fun bs => (snd bs < fst it)%Z) st
  end.
Proof.
  induction st as [|[b s] r IH]; simpl; [constructor |].
  destruct (Z.leb_spec (fst it) s) as [Hfit | Hno].
  - exists [], r, b, s. repeat split; [constructor | exact Hfit].
  - destruct (first_fit (map fst r) (map snd r) it) as [p'|].
    + destruct IH as (pre & post & b' & s' & -> & Hpre & Hfit & ->).
      exists ((b, s) :: pre), post, b', s'. repeat split.
      * constructor; [exact Hno | exact Hpre].
      * exact Hfit.
    + constructor; [exact Hno | exact IH].
Qed.

Lemma place_refines (BLOCK_SIZE : Z) (st : list (list item * Z)) (it : item) :
  exists st', place BLOCK_SIZE (unzip st) it = unzip st'
              /\ first_fit_step BLOCK_SIZE it st st'.
Proof.
  unfold place. simpl. pose proof (first_fit_scan st it) as H.
  destruct (first_fit (map fst st) (map snd st) it) as [p'|].
  - destruct H as (pre & post & b & s & -> & Hpre & Hfit & ->).
    eexists. split; [reflexivity |]. constructor; assumption.
  - exists (st ++ [([it], (BLOCK_SIZE - fst it)%Z)]). split.
    + rewrite unzip_app. reflexivity.
    + constructor. exact H.
Qed.

Lemma fold_place_refines (BLOCK_SIZE : Z) (its : list item)
  (st : list (list item * Z)) :
  exists st', fold_left (place BLOCK_SIZE) its (unzip st) = unzip st'
              /\ first_fit_steps BLOCK_SIZE its st st'.
Proof.
  revert st. induction its as [|it r IH]; intros st; simpl.
  - exists st. split; [reflexivity | constructor].
  - destruct (place_refines BLOCK_SIZE st it) as (st1 & -> & Hstep).
    destruct (IH st1) as (st2 & -> & Hsteps).
    exists st2. split; [reflexivity | econstructor; eassumption].
Qed.

Lemma pack_refines (BLOCK_SIZE : Z) (lengths : list Z) :
  exists st, pack BLOCK_SIZE lengths = unzip st
             /\ first_fit_steps BLOCK_SIZE (indexed_lengths lengths) [] st.
Proof. apply (fold_place_refines BLOCK_SIZE (indexed_lengths lengths) []). Qed.

(** The first element of a list that passes a test is determined. *)
Lemma first_passing_unique {A : Type} (ok : A -> Prop)
  (pre1 pre2 post1 post2 : list A) (x1 x2 : A) :
  pre1 ++ x1 :: post1 = pre2 ++ x2 :: post2 ->
  Forall (fun a => ~ ok a) pre1 -> ok x1 ->
  Forall (fun a => ~ ok a) pre2 -> ok x2 ->
  pre1 = pre2 /\ x1 = x2 /\ post1 = post2.
Proof.
  revert pre2. induction pre1 as [|a r IH]; intros [|a2 r2] E H1 Hx1 H2 Hx2;
    simpl in E; injection E as E1 E2; subst.
  - auto.
  - inversion H2; subst. tauto.
  - inversion H1; subst. tauto.
  - inversion H1; subst. inversion H2; subst.
    destruct (IH r2 E2) as (-> & -> & ->); auto.
Qed.

Lemma first_fit_step_deterministic (BLOCK_SIZE : Z) (it : item)
  (st st1 st2 : list (list item * Z)) :
  first_fit_step BLOCK_SIZE it st st1 -> first_fit_step BLOCK_SIZE it st st2 ->
  st1 = st2.
Proof.
  intros H1 H2. inversion H1 as [pre post b s Hpre Hfit E1 E2 | all Hall E1 E2]; subst;
    inversion H2 as [pre' post' b' s' Hpre' Hfit' E1' E2' | all' Hall' E1' E2']; subst.
  - destruct (first_passing_unique (fun bs : list item * Z => (fst it <= snd bs)%Z)
                pre' pre post' post (b', s') (b, s) E1') as (-> & E & ->).
    + eapply Forall_impl; [| exact Hpre']. simpl. intros; lia.
    + exact Hfit'.
    + eapply Forall_impl; [| exact Hpre]. simpl. intros; lia.
    + exact Hfit.
    + injection E as -> ->. reflexivity.
  - rewrite Forall_forall in Hall'.
    specialize (Hall' (b, s)). simpl in Hall'.
    exfalso. assert (s < fst it)%Z; [| lia].
    apply Hall'. apply in_or_app. right. left. reflexivity.
  - rewrite Forall_forall in Hall.
    specialize (Hall (b', s')). simpl in Hall.
    exfalso. assert (s' < fst it)%Z; [| lia].
    apply Hall. apply in_or_app. right. left. reflexivity.
  - reflexivity.
Qed.

Lemma first_fit_steps_deterministic (BLOCK_SIZE : Z) (its : list item)
  (st st1 st2 : list (list item * Z)) :
  first_fit_steps BLOCK_SIZE its st st1 -> first_fit_steps BLOCK_SIZE its st st2 ->
  st1 = st2.
Proof.
  intros H1. revert st2. induction H1 as [st | it its st sta st1 Hstep Hsteps IH];
    intros st2 H2; inversion H2; subst.
  - reflexivity.
  - apply IH.
    match goal with
    | H : first_fit_step _ it st ?x |- _ =>
        rewrite (first_fit_step_deterministic _ _ _ _ _ Hstep H)
    end. assumption.
Qed.

(** A property of every bin with its free capacity that each placement
    keeps holds at the end. *)
Lemma first_fit_step_keeps (P : list item * Z -> Prop) (BLOCK_SIZE : Z)
  (it : item) (st st' : list (list item * Z)) :
  first_fit_step BLOCK_SIZE it st st' ->
  (forall b s, P (b, s) -> (fst it <= s)%Z -> P (b ++ [it], (s - fst it)%Z)) ->
  P ([it], (BLOCK_SIZE - fst it)%Z) ->
  Forall P st -> Forall P st'.
Proof.
  intros Hstep Hadd Hnew Hst. inversion Hstep; subst.
  - apply Forall_app in Hst. destruct Hst as [Hpre Hrest].
    inversion Hrest; subst. apply Forall_app. split; [exact Hpre |].
    constructor; [apply Hadd; assumption | assumption].
  - apply Forall_app. split; [exact Hst | constructor; [exact Hnew | constructor]].
Qed.

Lemma first_fit_steps_keep (P : list item * Z -> Prop) (BLOCK_SIZE : Z)
  (its : list item) (st st' : list (list item * Z)) :
  first_fit_steps BLOCK_SIZE its st st' ->
  (forall it, In it its ->
     (forall b s, P (b, s) -> (fst it <= s)%Z -> P (b ++ [it], (s - fst it)%Z))
     /\ P ([it], (BLOCK_SIZE - fst it)%Z)) ->
  Forall P st -> Forall P st'.
Proof.
  intros Hsteps. induction Hsteps as [st | it its st st1 st2 Hstep Hsteps IH];
    intros Hits Hst; [exact Hst |].
  apply IH.
  - intros x Hx. apply Hits. right. exact Hx.
  - destruct (Hits it (or_introl eq_refl)) as [Hadd Hnew].
    eapply first_fit_step_keeps; eassumption.
Qed.

(** Every item is in exactly one bin. *)
Lemma first_fit_step_members (BLOCK_SIZE : Z) (it : item)
  (st st' : list (list item * Z)) :
  first_fit_step BLOCK_SIZE it st st' ->
  Permutation (concat (map fst st')) (concat (map fst st) ++ [it]).
Proof.
  intros Hstep. inversion Hstep; subst.
  - rewrite !map_app, !concat_app. simpl. rewrite <- !app_assoc.
    apply Permutation_app_head. apply Permutation_app_head.
    apply Permutation_app_comm.
  - rewrite map_app, concat_app. simpl. reflexivity.
Qed.

Lemma first_fit_steps_members (BLOCK_SIZE : Z) (its : list item)
  (st st' : list (list item * Z)) :
  first_fit_steps BLOCK_SIZE its st st' ->
  Permutation (concat (map fst st')) (concat (map fst st) ++ its).
Proof.
  intros Hsteps. induction Hsteps as [st | it its st st1 st2 Hstep Hsteps IH].
  - rewrite app_nil_r. reflexivity.
  - rewrite IH. rewrite (first_fit_step_members _ _ _ _ Hstep).
    rewrite <- app_assoc. reflexivity.
Qed.

Lemma sorted_before_descending (l : list item) :
  StronglySorted before l ->
  StronglySorted (fun x y : item => (fst y <= fst x)%Z) l.
Proof.
  induction 1 as [|x r Hr IH Hx]; constructor; [exact IH |].
  eapply Forall_impl; [| exact Hx]. unfold before. intros; lia.
Qed.

Lemma place_follows_spec (BLOCK_SIZE : Z) (st : list (list item * Z)) (it : item) :
  first_fit_step BLOCK_SIZE it st (with_space (place BLOCK_SIZE (unzip st) it))
  /\ place BLOCK_SIZE (unzip st) it
     = unzip (with_space (place BLOCK_SIZE (unzip st) it)).
Proof.
  destruct (place_refines BLOCK_SIZE st it) as (st' & -> & Hstep).
  rewrite with_space_unzip. split; [exact Hstep | reflexivity].
Qed.

(** C5: the Packer takes the sequences in order of descending length (the
    sorted list holds the same indexed lengths as the batch); each one
    goes to the first bin, in creation order, whose free capacity is at
    least its length, and when no bin fits a new bin is opened at the end
    with free capacity BLOCK_SIZE - length.  With BLOCK_SIZE = 8 and
    lengths 5, 3, 3, 2 the result is 2 bins, of occupied lengths 8 and
    5. *)
Theorem packer_first_fit_decreasing (BLOCK_SIZE : Z) :
  (forall lengths : list Z,
     Permutation (indexed_lengths lengths) (enumerate_from 0 lengths)
     /\ StronglySorted (fun x y : item => (fst y <= fst x)%Z)
          (indexed_lengths lengths)
     /\ pack BLOCK_SIZE lengths
        = fold_left (place BLOCK_SIZE) (indexed_lengths lengths) (Packing [] []))
  /\ (forall (st : list (list item * Z)) (it : item),
        first_fit_step BLOCK_SIZE it st
          (with_space (place BLOCK_SIZE (unzip st) it))
        /\ place BLOCK_SIZE (unzip st) it
           = unzip (with_space (place BLOCK_SIZE (unzip st) it)))
  /\ (pack 8 [5; 3; 3; 2]%Z
      = Packing [[(5%Z, 0); (3%Z, 1)]; [(3%Z, 2); (2%Z, 3)]] [0%Z; 3%Z]
      /\ length (bins (pack 8 [5; 3; 3; 2]%Z)) = 2
      /\ map occupied (bins (pack 8 [5; 3; 3; 2]%Z)) = [8%Z; 5%Z]
      /\ forall a b c d : list Z,
           map len [a; b; c; d] = [5; 3; 3; 2]%Z ->
           map (fun _bin => len (combined_ids [a; b; c; d] _bin))
             (bins (pack 8 (map len [a; b; c; d])))
           = [8%Z; 5%Z]).
Proof.
  split; [| split].
  - intros lengths. split; [apply indexed_lengths_perm | split].
    + apply sorted_before_descending. apply indexed_lengths_sorted.
    + reflexivity.
  - intros st it. apply place_follows_spec.
  - split; [reflexivity | split; [reflexivity | split; [reflexivity |]]].
    intros a b c d Hlen. rewrite Hlen.
    simpl in Hlen. injection Hlen as Ha Hb Hc Hd.
    change (bins (pack 8 [5; 3; 3; 2]%Z))
      with [[(5%Z, 0); (3%Z, 1)]; [(3%Z, 2); (2%Z, 3)]].
    unfold combined_ids. cbn [map flat_map nth snd].
    rewrite !app_nil_r, !len_app, Ha, Hb, Hc, Hd. reflexivity.
Qed.

Lemma packer_first_fit_decreasing_witness :
  map (fun _bin => len (combined_ids [[1; 2; 3; 4; 0]; [5; 6; 0]; [7; 8; 0]; [9; 0]]%Z _bin))
    (bins (pack 8 (map len [[1; 2; 3; 4; 0]; [5; 6; 0]; [7; 8; 0]; [9; 0]]%Z)))
  = [8%Z; 5%Z].
Proof.
  exact (proj2 (proj2 (proj2 (proj2 (proj2 (packer_first_fit_decreasing 8)))))
           [1; 2; 3; 4; 0]%Z [5; 6; 0]%Z [7; 8; 0]%Z [9; 0]%Z eq_refl).
Defined.

Lemma pack_is_run (BLOCK_SIZE : Z) (lengths : list Z) :
  packer_run BLOCK_SIZE lengths (with_space (pack BLOCK_SIZE lengths))
  /\ pack BLOCK_SIZE lengths = unzip (with_space (pack BLOCK_SIZE lengths)).
Proof.
  destruct (pack_refines BLOCK_SIZE lengths) as (st & -> & Hsteps).
  rewrite with_space_unzip. split; [| reflexivity].
  exists (indexed_lengths lengths). split; [apply indexed_lengths_perm | split].
  - apply indexed_lengths_sorted.
  - exact Hsteps.
Qed.

Lemma packer_run_functional (BLOCK_SIZE : Z) (lengths : list Z)
  (r1 r2 : list (list item * Z)) :
  packer_run BLOCK_SIZE lengths r1 -> packer_run BLOCK_SIZE lengths r2 -> r1 = r2.
Proof.
  intros (o1 & Hp1 & Hs1 & Hr1) (o2 & Hp2 & Hs2 & Hr2).
  assert (E : o1 = o2).
  { apply sorted_before_unique; try assumption.
    rewrite Hp1. symmetry. exact Hp2. }
  subst o2. eapply first_fit_steps_deterministic; eassumption.
Qed.

(** C9: the assignment of sequences to bins is a function of the batch
    and BLOCK_SIZE alone.  Any run that sorts the indexed lengths longest
    first with ties in original order and then applies first fit ends in
    the bins the code computes, so two runs agree; the sorted order itself
    is determined (every list with these elements in this order is the one
    the code builds); and the sort is stable: two sequences of equal
    length stand in the sorted list in their original relative order. *)
Theorem packer_deterministic (BLOCK_SIZE : Z) (lengths : list Z) :
  (packer_run BLOCK_SIZE lengths (with_space (pack BLOCK_SIZE lengths))
   /\ pack BLOCK_SIZE lengths = unzip (with_space (pack BLOCK_SIZE lengths)))
  /\ (forall r1 r2 : list (list item * Z),
        packer_run BLOCK_SIZE lengths r1 -> packer_run BLOCK_SIZE lengths r2 ->
        r1 = r2)
  /\ (forall order : list item,
        Permutation order (enumerate_from 0 lengths) ->
        StronglySorted before order ->
        order = indexed_lengths lengths)
  /\ (forall (i j : nat) (l : Z),
        i < j -> nth_error lengths i = Some l -> nth_error lengths j = Some l ->
        exists l1 l2 l3,
          indexed_lengths lengths = l1 ++ (l, i) :: l2 ++ (l, j) :: l3).
Proof.
  split; [apply pack_is_run | split; [| split]].
  - apply packer_run_functional.
  - intros order Hp Hs. apply sorted_before_unique.
    + exact Hs.
    + apply indexed_lengths_sorted.
    + rewrite Hp. symmetry. apply indexed_lengths_perm.
  - intros i j l Hij Hi Hj.
    apply sorted_before_split.
    + apply indexed_lengths_sorted.
    + apply (Permutation_in _ (Permutation_sym (indexed_lengths_perm lengths))).
      apply enumerate_from_spec. rewrite Nat.sub_0_r. split; [lia | exact Hi].
    + apply (Permutation_in _ (Permutation_sym (indexed_lengths_perm lengths))).
      apply enumerate_from_spec. rewrite Nat.sub_0_r. split; [lia | exact Hj].
    + right. simpl. split; [reflexivity | exact Hij].
Qed.

Lemma packer_deterministic_witness :
  exists l1 l2 l3,
    indexed_lengths [3; 5; 3; 2; 5]%Z = l1 ++ (3%Z, 0) :: l2 ++ (3%Z, 2) :: l3.
Proof.
  exact (proj2 (proj2 (proj2 (packer_deterministic 8 [3; 5; 3; 2; 5]%Z)))
           0 2 3%Z (le_S _ _ (le_n 1)) eq_refl eq_refl).
Defined.

(** ** Blocks *)

Lemma pad_app (x : list Z) (pad_len v : Z) :
  pad x pad_len v = x ++ repeat v (Z.to_nat pad_len).
Proof.
  unfold pad. destruct (Z.ltb_spec 0 pad_len) as [H | H]; [reflexivity |].
  replace (Z.to_nat pad_len) with 0 by lia. simpl. rewrite app_nil_r. reflexivity.
Qed.

Lemma build_block_app (BLOCK_SIZE eos_token_id : Z)
  (tokenized : list (list Z)) (_bin : list item) :
  build_block BLOCK_SIZE eos_token_id tokenized _bin
  = (combined_ids tokenized _bin
       ++ repeat eos_token_id
            (Z.to_nat (BLOCK_SIZE - len (combined_ids tokenized _bin))),
     combined_pos _bin
       ++ repeat 0%Z
            (Z.to_nat (BLOCK_SIZE - len (combined_ids tokenized _bin)))).
Proof. unfold build_block. rewrite !pad_app. reflexivity. Qed.

Lemma length_range (n : Z) : length (range n) = Z.to_nat n.
Proof. unfold range. rewrite length_map, length_seq. reflexivity. Qed.

Lemma nth_range (n : Z) (k : nat) (d : Z) :
  k < Z.to_nat n -> nth k (range n) d = Z.of_nat k.
Proof.
  intros H. unfold range.
  rewrite (nth_indep _ d (Z.of_nat 0)) by (rewrite length_map, length_seq; exact H).
  rewrite map_nth, seq_nth by exact H. reflexivity.
Qed.

Lemma occupied_app (b : list item) (it : item) :
  occupied (b ++ [it]) = (occupied b + fst it)%Z.
Proof.
  unfold occupied. induction b as [|x r IH]; simpl; [lia |].
  rewrite map_app in *. simpl in *. lia.
Qed.

Lemma combined_lengths (tokenized : list (list Z)) (b : list item) :
  Forall (consistent tokenized) b ->
  len (combined_ids tokenized b) = occupied b
  /\ len (combined_pos b) = occupied b.
Proof.
  unfold combined_ids, combined_pos, occupied.
  induction 1 as [|it r Hit Hr [IH1 IH2]]; simpl; [split; reflexivity |].
  rewrite !len_app, IH1, IH2. unfold consistent in Hit.
  split; [rewrite Hit; reflexivity |].
  f_equal. unfold len at 1. rewrite length_range.
  pose proof (len_nonneg (nth (snd it) tokenized [])). lia.
Qed.

Lemma enumerated_consistent (tokenized : list (list Z)) (it : item) :
  In it (enumerate_from 0 (map len tokenized)) ->
  consistent tokenized it /\ nth_error tokenized (snd it) <> None.
Proof.
  destruct it as [l i]. intros Hin. apply enumerate_from_spec in Hin.
  destruct Hin as [_ Hin]. rewrite Nat.sub_0_r, nth_error_map in Hin.
  destruct (nth_error tokenized i) as [seq|] eqn:E; [| discriminate].
  simpl in Hin. injection Hin as <-. split; [| simpl; rewrite E; discriminate].
  unfold consistent. simpl. rewrite (nth_error_nth _ _ _ E). reflexivity.
Qed.

Lemma indexed_consistent (tokenized : list (list Z)) (it : item) :
  In it (indexed_lengths (map len tokenized)) -> consistent tokenized it.
Proof.
  intros Hin. apply enumerated_consistent.
  exact (Permutation_in _ (indexed_lengths_perm _) Hin).
Qed.

Lemma in_bins_unzip (st : list (list item * Z)) (b : list item) :
  In b (bins (unzip st)) <-> exists s, In (b, s) st.
Proof.
  unfold unzip. simpl. rewrite in_map_iff. split.
  - intros [[b' s] [<- Hin]]. exists s. exact Hin.
  - intros [s Hin]. exists (b, s). split; [reflexivity | exact Hin].
Qed.

(** Every bin of the Packer, for sequences of at most BLOCK_SIZE tokens:
    the free capacity is what the members leave, and is not negative. *)
Lemma pack_capacity (BLOCK_SIZE : Z) (tokenized : list (list Z)) (b : list item) :
  Forall (fun s => (len s <= BLOCK_SIZE)%Z) tokenized ->
  In b (bins (pack BLOCK_SIZE (map len tokenized))) ->
  Forall (consistent tokenized) b /\ (occupied b <= BLOCK_SIZE)%Z.
Proof.
  intros Hshort Hb.
  destruct (pack_refines BLOCK_SIZE (map len tokenized)) as (st & E & Hsteps).
  rewrite E in Hb. apply in_bins_unzip in Hb. destruct Hb as [s Hb].
  pose (P := fun bs : list item * Z =>
               snd bs = (BLOCK_SIZE - occupied (fst bs))%Z /\ (0 <= snd bs)%Z
               /\ Forall (consistent tokenized) (fst bs)).
  assert (HP : Forall P st).
  { apply (first_fit_steps_keep P BLOCK_SIZE _ [] st Hsteps); [| constructor].
    intros it Hit. pose proof (indexed_consistent tokenized it Hit) as Hc.
    assert (Hle : (fst it <= BLOCK_SIZE)%Z).
    { rewrite Hc.
      pose proof (Permutation_in _ (indexed_lengths_perm _) Hit) as He.
      apply enumerated_consistent in He. destruct He as [_ He].
      apply nth_error_Some in He.
      rewrite Forall_forall in Hshort. apply Hshort. apply nth_In. exact He. }
    unfold P. simpl. split.
    - intros b0 s0 (Hs & Hpos & Hall) Hfit. rewrite occupied_app.
      split; [lia | split; [lia |]].
      apply Forall_app. split; [exact Hall | constructor; [exact Hc | constructor]].
    - unfold occupied. simpl. split; [lia | split; [lia |]].
      constructor; [exact Hc | constructor]. }
  rewrite Forall_forall in HP. destruct (HP _ Hb) as (Hs & Hpos & Hall).
  simpl in *. split; [exact Hall | lia].
Qed.

Lemma block_shape (BLOCK_SIZE eos_token_id : Z) (tokenized : list (list Z))
  (b : list item) :
  Forall (consistent tokenized) b -> (occupied b <= BLOCK_SIZE)%Z ->
  len (fst (build_block BLOCK_SIZE eos_token_id tokenized b)) = BLOCK_SIZE
  /\ len (snd (build_block BLOCK_SIZE eos_token_id tokenized b)) = BLOCK_SIZE
  /\ (len (combined_ids tokenized b) <= BLOCK_SIZE)%Z
  /\ len (combined_pos b) = len (combined_ids tokenized b).
Proof.
  intros Hall Hocc. destruct (combined_lengths tokenized b Hall) as [Hi Hp].
  rewrite build_block_app. simpl. rewrite !len_app, Hi, Hp.
  assert (Hrep : forall v : Z,
            len (repeat v (Z.to_nat (BLOCK_SIZE - occupied b)))
            = (BLOCK_SIZE - occupied b)%Z).
  { intros v. unfold len. rewrite repeat_length. lia. }
  rewrite !Hrep. repeat split; lia.
Qed.

(** ** Shard writes *)

Lemma same_width_of_Forall (width : nat) (tensors : list (list Z)) :
  Forall (fun r => length r = width) tensors -> same_width tensors = true.
Proof.
  intros H. destruct tensors as [|r rs]; [reflexivity |]. simpl.
  inversion H as [|? ? Hr Hrs]; subst. apply forallb_forall. intros r' Hin.
  rewrite Forall_forall in Hrs. rewrite (Hrs _ Hin). apply Nat.eqb_refl.
Qed.

Lemma stack_same_width (width : nat) (tensors : list (list Z)) :
  tensors <> [] -> Forall (fun r => length r = width) tensors ->
  stack tensors = Some tensors.
Proof.
  intros Hne H. unfold stack. rewrite (same_width_of_Forall width tensors H).
  destruct tensors; [congruence | reflexivity].
Qed.

Lemma combine_snoc {A B : Type} (l : list A) (m : list B) (x : A) (y : B) :
  length l = length m -> combine (l ++ [x]) (m ++ [y]) = combine l m ++ [(x, y)].
Proof.
  revert m. induction l as [|a r IH]; intros [|b m'] H; simpl in *; try discriminate.
  - reflexivity.
  - rewrite IH by lia. reflexivity.
Qed.

Section WriterFacts.

Variable BLOCK_SIZE : Z.
Variable SLICE_SIZE : nat.
Variable eos_token_id : Z.
Variable tokenized : list (list Z).
Variable idx0 : nat.
Variable width : nat.

Local Abbreviation block := (build_block BLOCK_SIZE eos_token_id tokenized).

Lemma bin_step_saves (w : writer) (_bin : list item) :
  writer_ok width w ->
  length (fst (block _bin)) = width -> length (snd (block _bin)) = width ->
  exists w',
    bin_step BLOCK_SIZE SLICE_SIZE eos_token_id tokenized idx0 w _bin = Some w'
    /\ writer_ok width w'
    /\ written w' = written w ++ [block _bin].
Proof.
  intros (Hlen & Hids & Hpos & Hsaved) Hw1 Hw2. unfold bin_step.
  cbv zeta. set (blk := block _bin) in *. clearbody blk.
  assert (Hids' : Forall (fun r => length r = width)
                    (out_input_ids w ++ [fst blk])).
  { apply Forall_app. split; [exact Hids | constructor; [exact Hw1 | constructor]]. }
  assert (Hpos' : Forall (fun r => length r = width)
                    (out_position_ids w ++ [snd blk])).
  { apply Forall_app. split; [exact Hpos | constructor; [exact Hw2 | constructor]]. }
  assert (Hcomb : combine (out_input_ids w ++ [fst blk])
                    (out_position_ids w ++ [snd blk])
                  = combine (out_input_ids w) (out_position_ids w) ++ [blk]).
  { rewrite combine_snoc by exact Hlen. destruct blk; reflexivity. }
  destruct (Nat.eqb _ SLICE_SIZE).
  - rewrite (stack_same_width width) by (try exact Hids'; destruct (out_input_ids w); discriminate).
    rewrite (stack_same_width width) by (try exact Hpos'; destruct (out_position_ids w); discriminate).
    eexists. split; [reflexivity |]. split.
    + unfold writer_ok. simpl. repeat split; try constructor.
      apply Forall_app. split; [exact Hsaved |]. constructor; [| constructor].
      simpl. rewrite !length_app, Hlen. reflexivity.
    + unfold written. simpl. rewrite map_app, concat_app. simpl.
      unfold rows at 2. simpl. rewrite Hcomb, !app_nil_r, app_assoc. reflexivity.
  - eexists. split; [reflexivity |]. split.
    + unfold writer_ok. simpl. repeat split; try assumption.
      rewrite !length_app, Hlen. reflexivity.
    + unfold written. simpl. rewrite Hcomb, app_assoc. reflexivity.
Qed.

Lemma bin_loop_saves (bs : list (list item)) (w : writer) :
  writer_ok width w ->
  Forall (fun b => length (fst (block b)) = width
                   /\ length (snd (block b)) = width) bs ->
  exists w',
    bin_loop BLOCK_SIZE SLICE_SIZE eos_token_id tokenized idx0 w bs = Some w'
    /\ writer_ok width w'
    /\ written w' = written w ++ map block bs.
Proof.
  revert w. induction bs as [|b r IH]; intros w Hw Hbs; simpl.
  - exists w. rewrite app_nil_r. auto.
  - apply Forall_cons_iff in Hbs. destruct Hbs as [[Hb1 Hb2] Hr].
    destruct (bin_step_saves w b Hw Hb1 Hb2) as (w1 & -> & Hw1 & E1).
    destruct (IH w1 Hw1 Hr) as (w2 & -> & Hw2 & E2).
    exists w2. split; [reflexivity | split; [exact Hw2 |]].
    rewrite E2, E1, <- app_assoc. reflexivity.
Qed.

Lemma flush_rest_saves (w : writer) :
  writer_ok width w ->
  exists files,
    flush_rest idx0 w = Some files
    /\ concat (map (fun f => rows (snd f)) files) = written w
    /\ Forall (fun f => length (input_ids (snd f)) = length (position_ids (snd f)))
         files.
Proof.
  intros (Hlen & Hids & Hpos & Hsaved). unfold flush_rest, written.
  destruct (out_input_ids w) as [|r rs] eqn:E.
  - simpl. exists (saved w). rewrite app_nil_r. auto.
  - destruct (out_position_ids w) as [|q qs] eqn:E'; [discriminate |].
    cbn [length Nat.ltb Nat.leb].
    rewrite (stack_same_width width) by (try exact Hids; discriminate).
    rewrite (stack_same_width width) by (try exact Hpos; discriminate).
    eexists. split; [reflexivity |]. split.
    + rewrite map_app, concat_app. simpl. rewrite app_nil_r. reflexivity.
    + apply Forall_app. split; [exact Hsaved |]. constructor; [exact Hlen | constructor].
Qed.

(** With Blocks of one width, every Block is saved, in bin order. *)
Lemma pack_and_save_saves (lengths : list Z) :
  Forall (fun b => length (fst (block b)) = width
                   /\ length (snd (block b)) = width)
    (bins (pack BLOCK_SIZE lengths)) ->
  exists files,
    pack_and_save BLOCK_SIZE SLICE_SIZE eos_token_id tokenized idx0 lengths
    = Some files
    /\ concat (map (fun f => rows (snd f)) files)
       = map block (bins (pack BLOCK_SIZE lengths))
    /\ Forall (fun f => length (input_ids (snd f)) = length (position_ids (snd f)))
         files.
Proof.
  intros Hbs. unfold pack_and_save.
  assert (H0 : writer_ok width (Writer [] [] 0 [])).
  { unfold writer_ok. simpl. repeat split; constructor. }
  destruct (bin_loop_saves _ _ H0 Hbs) as (w & -> & Hw & E).
  destruct (flush_rest_saves w Hw) as (files & -> & E' & Hfiles).
  exists files. split; [reflexivity | split; [| exact Hfiles]].
  rewrite E', E. reflexivity.
Qed.

End WriterFacts.

(** C1: for sub-sequences of at most BLOCK_SIZE tokens each, the Packer
    writes its files without error; the Blocks in the files are, in
    order, the Blocks built from the bins; and for every bin the token
    array and the position array are BLOCK_SIZE entries long, the
    occupied prefix, which is the concatenation of the members'
    token ids, has at most BLOCK_SIZE tokens, and all entries after it are
    padding: the terminator id in the token array and 0 in the position
    array. *)
Theorem packed_blocks_padded
  (BLOCK_SIZE : Z) (SLICE_SIZE : nat) (eos_token_id : Z)
  (tokenized : list (list Z)) (idx0 : nat) :
  Forall (fun s => (len s <= BLOCK_SIZE)%Z) tokenized ->
  exists files,
    pack_and_save BLOCK_SIZE SLICE_SIZE eos_token_id tokenized idx0
      (map len tokenized) = Some files
    /\ Forall (fun f => length (input_ids (snd f)) = length (position_ids (snd f)))
         files
    /\ concat (map (fun f => rows (snd f)) files)
       = map (build_block BLOCK_SIZE eos_token_id tokenized)
           (bins (pack BLOCK_SIZE (map len tokenized)))
    /\ forall _bin,
         In _bin (bins (pack BLOCK_SIZE (map len tokenized))) ->
         let occ := combined_ids tokenized _bin in
         let blk := build_block BLOCK_SIZE eos_token_id tokenized _bin in
         len (fst blk) = BLOCK_SIZE
         /\ len (snd blk) = BLOCK_SIZE
         /\ (len occ <= BLOCK_SIZE)%Z
         /\ fst blk = occ ++ repeat eos_token_id (Z.to_nat (BLOCK_SIZE - len occ))
         /\ snd blk
            = combined_pos _bin ++ repeat 0%Z (Z.to_nat (BLOCK_SIZE - len occ))
         /\ len (combined_pos _bin) = len occ.
Proof.
  intros Hshort.
  assert (Hshape : forall b,
            In b (bins (pack BLOCK_SIZE (map len tokenized))) ->
            len (fst (build_block BLOCK_SIZE eos_token_id tokenized b)) = BLOCK_SIZE
            /\ len (snd (build_block BLOCK_SIZE eos_token_id tokenized b)) = BLOCK_SIZE
            /\ (len (combined_ids tokenized b) <= BLOCK_SIZE)%Z
            /\ len (combined_pos b) = len (combined_ids tokenized b)).
  { intros b Hb. destruct (pack_capacity BLOCK_SIZE tokenized b Hshort Hb).
    apply block_shape; assumption. }
  destruct (pack_and_save_saves BLOCK_SIZE SLICE_SIZE eos_token_id tokenized idx0
              (Z.to_nat BLOCK_SIZE) (map len tokenized)) as (files & E & Hrows & Hlen).
  { apply Forall_forall. intros b Hb. destruct (Hshape b Hb) as (H1 & H2 & _).
    unfold len in H1, H2. lia. }
  exists files. repeat split; try assumption;
    try (apply Hshape; assumption);
    rewrite build_block_app; reflexivity.
Qed.

Lemma packed_blocks_padded_witness :
  exists files,
    pack_and_save 8 2 0 [[1; 2; 3; 4; 0]; [5; 6; 0]; [7; 8; 0]; [9; 0]]%Z 7
      (map len [[1; 2; 3; 4; 0]; [5; 6; 0]; [7; 8; 0]; [9; 0]]%Z) = Some files.
Proof.
  assert (Hshort : Forall (fun s => (len s <= 8)%Z)
                     [[1; 2; 3; 4; 0]; [5; 6; 0]; [7; 8; 0]; [9; 0]]%Z).
  { repeat constructor; vm_compute; discriminate. }
  destruct (packed_blocks_padded 8 2 0
              [[1; 2; 3; 4; 0]; [5; 6; 0]; [7; 8; 0]; [9; 0]]%Z 7 Hshort)
    as (files & E & _).
  exists files. exact E.
Defined.

(** ** What the splitter hands to the Packer *)

Lemma split_loop_pairs (BLOCK_SIZE eos_token_id split_value : Z) (t : list Z) :
  Forall (fun pr : list Z * Z => snd pr = len (fst pr) /\ fst pr <> [])
    (split_loop BLOCK_SIZE eos_token_id split_value t).
Proof.
  funelim (split_loop BLOCK_SIZE eos_token_id split_value t);
    try (constructor; fail).
  constructor; [| assumption]. simpl. split.
  - rewrite len_app. unfold len at 1. rewrite length_upto; [reflexivity |].
    apply Nat.lt_le_incl. rewrite <- Hdots. apply masked_max_in_range.
    rewrite Hdots. discriminate.
  - intros E. apply app_eq_nil in E. destruct E as [_ E]. discriminate.
Qed.

Lemma split_batch_pairs (BLOCK_SIZE eos_token_id split_value : Z)
  (raw_tokenized : list (list Z)) :
  Forall (fun pr : list Z * Z => snd pr = len (fst pr) /\ fst pr <> [])
    (split_batch BLOCK_SIZE eos_token_id split_value raw_tokenized).
Proof.
  unfold split_batch. induction raw_tokenized as [|t r IH]; simpl; [constructor |].
  apply Forall_app. split; [| exact IH].
  unfold split_one. destruct (_ <=? _)%Z.
  - constructor; [| constructor]. simpl. split.
    + rewrite len_app. reflexivity.
    + intros E. apply app_eq_nil in E. destruct E as [_ E]. discriminate.
  - apply split_loop_pairs.
Qed.

Lemma lengths_of_tokenized (BLOCK_SIZE eos_token_id split_value : Z)
  (raw_tokenized : list (list Z)) :
  lengths_of BLOCK_SIZE eos_token_id split_value raw_tokenized
  = map len (tokenized_of BLOCK_SIZE eos_token_id split_value raw_tokenized)
  /\ Forall (fun s => s <> [])
       (tokenized_of BLOCK_SIZE eos_token_id split_value raw_tokenized).
Proof.
  unfold lengths_of, tokenized_of.
  pose proof (split_batch_pairs BLOCK_SIZE eos_token_id split_value raw_tokenized) as H.
  induction H as [|pr r [H1 H2] Hr [IH1 IH2]]; simpl; [split; [reflexivity | constructor] |].
  split; [rewrite H1, IH1; reflexivity | constructor; assumption].
Qed.

(** ** Positions *)

Lemma pack_members (BLOCK_SIZE : Z) (lengths : list Z) (b : list item) (it : item) :
  In b (bins (pack BLOCK_SIZE lengths)) -> In it b ->
  In it (enumerate_from 0 lengths).
Proof.
  intros Hb Hit.
  destruct (pack_refines BLOCK_SIZE lengths) as (st & E & Hsteps).
  rewrite E in Hb. unfold unzip in Hb. simpl in Hb.
  apply (Permutation_in _ (indexed_lengths_perm lengths)).
  apply (Permutation_in _ (first_fit_steps_members _ _ _ _ Hsteps)).
  apply in_concat. exists b. split; assumption.
Qed.

Lemma starts_from_ge (off : nat) (b : list item) (x : nat) :
  In x (starts_from off b) -> off <= x.
Proof.
  revert off. induction b as [|it r IH]; intros off; simpl; [tauto |].
  intros [<- | H]; [lia |]. apply IH in H. lia.
Qed.

(** Inside the occupied prefix, position 0 stands at the member starts and
    nowhere else. *)
Lemma combined_pos_zero (b : list item) (off k : nat) (d : Z) :
  Forall (fun it : item => (1 <= fst it)%Z) b ->
  k < length (combined_pos b) ->
  (nth k (combined_pos b) d = 0%Z <-> In (off + k) (starts_from off b)).
Proof.
  unfold combined_pos. intros Hb. revert off k.
  induction Hb as [|it r Hit Hr IH]; intros off k Hk; simpl in *; [lia |].
  rewrite length_app, length_range in Hk.
  destruct (Nat.lt_ge_cases k (Z.to_nat (fst it))) as [Hlt | Hge].
  - rewrite app_nth1 by (rewrite length_range; exact Hlt).
    rewrite nth_range by exact Hlt. split.
    + intros E. left. lia.
    + intros [E | Hin]; [lia |]. apply starts_from_ge in Hin. lia.
  - rewrite app_nth2 by (rewrite length_range; exact Hge).
    rewrite length_range.
    rewrite (IH (off + Z.to_nat (fst it)) (k - Z.to_nat (fst it))) by lia.
    replace (off + Z.to_nat (fst it) + (k - Z.to_nat (fst it))) with (off + k) by lia.
    split; [intros H; right; exact H |].
    intros [E | H]; [lia | exact H].
Qed.

(** C8: for every bin the Packer builds from the splitter's output, the
    position array of its Block is the ranges 0..length-1 of the member
    sub-sequences, one after the other in the order of assignment to the
    bin, followed by zeros up to BLOCK_SIZE; each range is as long as the
    member it stands for, the ranges together as long as the occupied
    prefix; and inside the occupied prefix the position value is 0 at the
    offsets where a member starts and nowhere else. *)
Theorem positions_restart_per_member
  (BLOCK_SIZE eos_token_id split_value : Z) (raw_tokenized : list (list Z))
  (_bin : list item) :
  let tokenized := tokenized_of BLOCK_SIZE eos_token_id split_value raw_tokenized in
  let lengths := lengths_of BLOCK_SIZE eos_token_id split_value raw_tokenized in
  let blk := build_block BLOCK_SIZE eos_token_id tokenized _bin in
  In _bin (bins (pack BLOCK_SIZE lengths)) ->
  snd blk
  = flat_map (fun it : item => range (fst it)) _bin
      ++ repeat 0%Z (Z.to_nat (BLOCK_SIZE - len (combined_ids tokenized _bin)))
  /\ Forall (fun it : item => fst it = len (nth (snd it) tokenized [])) _bin
  /\ length (flat_map (fun it : item => range (fst it)) _bin)
     = length (combined_ids tokenized _bin)
  /\ forall k : nat,
       k < length (combined_ids tokenized _bin) ->
       (nth k (snd blk) 1%Z = 0%Z <-> In k (starts_from 0 _bin)).
Proof.
  intros tokenized lengths blk Hbin.
  destruct (lengths_of_tokenized BLOCK_SIZE eos_token_id split_value raw_tokenized)
    as [Hlens Hne].
  fold tokenized in Hlens, Hne. fold lengths in Hlens.
  assert (Hmem : forall it, In it _bin ->
            consistent tokenized it /\ (1 <= fst it)%Z).
  { intros it Hit. rewrite Hlens in Hbin.
    pose proof (pack_members _ _ _ _ Hbin Hit) as He.
    destruct (enumerated_consistent tokenized it He) as [Hc Hi].
    split; [exact Hc |]. rewrite Hc.
    apply nth_error_Some in Hi. rewrite Forall_forall in Hne.
    pose proof (Hne _ (nth_In tokenized [] Hi)) as Hn.
    destruct (nth (snd it) tokenized []); [congruence |].
    unfold len. simpl. lia. }
  assert (Hcons : Forall (consistent tokenized) _bin).
  { apply Forall_forall. intros it Hit. apply Hmem. exact Hit. }
  destruct (combined_lengths tokenized _bin Hcons) as [Hi Hp].
  assert (Hsame : length (combined_pos _bin) = length (combined_ids tokenized _bin)).
  { unfold len in Hi, Hp. lia. }
  subst blk. rewrite build_block_app. simpl.
  split; [reflexivity | split; [exact Hcons | split; [exact Hsame |]]].
  intros k Hk. rewrite app_nth1 by (rewrite Hsame; exact Hk).
  apply (combined_pos_zero _bin 0 k 1%Z).
  - apply Forall_forall. intros it Hit. apply Hmem. exact Hit.
  - rewrite Hsame. exact Hk.
Qed.

Lemma positions_restart_per_member_witness :
  snd (build_block 8 0 (tokenized_of 8 0 13 [[1; 2; 3; 4]; [5; 6]; [7; 8]; [9]]%Z)
         [(3%Z, 2); (2%Z, 3)])
  = flat_map (fun it : item => range (fst it)) [(3%Z, 2); (2%Z, 3)]
      ++ repeat 0%Z
           (Z.to_nat
              (8 - len (combined_ids
                          (tokenized_of 8 0 13 [[1; 2; 3; 4]; [5; 6]; [7; 8]; [9]]%Z)
                          [(3%Z, 2); (2%Z, 3)]))).
Proof.
  assert (Hbin : In [(3%Z, 2); (2%Z, 3)]
                   (bins (pack 8 (lengths_of 8 0 13
                                   [[1; 2; 3; 4]; [5; 6]; [7; 8]; [9]]%Z)))).
  { right. left. reflexivity. }
  exact (proj1 (positions_restart_per_member 8 0 13
                  [[1; 2; 3; 4]; [5; 6]; [7; 8]; [9]]%Z [(3%Z, 2); (2%Z, 3)] Hbin)).
Defined.

(** ** A sequence longer than BLOCK_SIZE *)

Lemma occupied_nonneg (b : list item) :
  Forall (fun it : item => (0 <= fst it)%Z) b -> (0 <= occupied b)%Z.
Proof.
  unfold occupied. induction 1 as [|it r Hit Hr IH]; simpl; lia.
Qed.

Lemma overlong_block (BLOCK_SIZE eos_token_id : Z) (tokenized : list (list Z))
  (i : nat) (seq : list Z) :
  nth_error tokenized i = Some seq -> (BLOCK_SIZE < len seq)%Z ->
  build_block BLOCK_SIZE eos_token_id tokenized [(len seq, i)]
  = (seq, range (len seq)).
Proof.
  intros Hi Hlong. unfold build_block, combined_ids, combined_pos, pad.
  cbn [flat_map snd fst]. rewrite (nth_error_nth _ _ _ Hi), !app_nil_r.
  destruct (Z.ltb_spec 0 (BLOCK_SIZE - len seq)); [lia | reflexivity].
Qed.


(** The bin of a sequence longer than BLOCK_SIZE holds nothing else. *)
Lemma overlong_alone (BLOCK_SIZE : Z) (tokenized : list (list Z))
  (i : nat) (seq : list Z) :
  nth_error tokenized i = Some seq -> (BLOCK_SIZE < len seq)%Z ->
  In [(len seq, i)] (bins (pack BLOCK_SIZE (map len tokenized)))
  /\ forall b, In b (bins (pack BLOCK_SIZE (map len tokenized))) ->
               In (len seq, i) b -> b = [(len seq, i)].
Proof.
  intros Hi Hlong.
  destruct (pack_refines BLOCK_SIZE (map len tokenized)) as (st & E & Hsteps).
  rewrite E. unfold unzip. simpl.
  pose (it0 := (len seq, i) : item).
  pose (P := fun bs : list item * Z =>
               snd bs = (BLOCK_SIZE - occupied (fst bs))%Z
               /\ Forall (fun it : item => (0 <= fst it)%Z) (fst bs)
               /\ (In it0 (fst bs) -> fst bs = [it0])).
  assert (HP : Forall P st).
  { apply (first_fit_steps_keep P BLOCK_SIZE _ [] st Hsteps); [| constructor].
    intros it Hit. pose proof (indexed_consistent tokenized it Hit) as Hc.
    assert (Hpos : (0 <= fst it)%Z) by (rewrite Hc; apply len_nonneg).
    unfold P. simpl. split.
    - intros b s (Hs & Hall & Halone) Hfit. rewrite occupied_app.
      split; [lia | split].
      + apply Forall_app. split; [exact Hall | constructor; [exact Hpos | constructor]].
      + intros Hin. exfalso. apply in_app_or in Hin.
        destruct Hin as [Hin | [Heq | []]].
        * rewrite (Halone Hin) in Hs. unfold occupied, it0 in Hs.
          cbn [map fold_right fst] in Hs. lia.
        * pose proof (occupied_nonneg b Hall). rewrite Heq in Hfit.
          unfold it0 in Hfit. cbn [fst] in Hfit. lia.
    - unfold occupied. simpl. split; [lia | split].
      + constructor; [exact Hpos | constructor].
      + intros [-> | []]. reflexivity. }
  assert (Hin0 : In it0 (concat (map fst st))).
  { apply (Permutation_in _ (Permutation_sym (first_fit_steps_members _ _ _ _ Hsteps))).
    simpl. apply (Permutation_in _ (Permutation_sym (indexed_lengths_perm _))).
    apply enumerate_from_spec. rewrite Nat.sub_0_r, nth_error_map, Hi.
    split; [lia | reflexivity]. }
  assert (Halone : forall b, In b (map fst st) -> In it0 b -> b = [it0]).
  { intros b Hb Hin. apply in_map_iff in Hb. destruct Hb as [[b' s] [<- Hb]].
    rewrite Forall_forall in HP. destruct (HP _ Hb) as (_ & _ & H). apply H. exact Hin. }
  split; [| exact Halone].
  apply in_concat in Hin0. destruct Hin0 as (b & Hb & Hin).
  change (In [it0] (map fst st)). rewrite <- (Halone b Hb Hin). exact Hb.
Qed.

(** ** The whole of [map_to_batch] *)

Lemma split_loop_fits (BLOCK_SIZE eos_token_id split_value : Z) (t : list Z) :
  (1 <= BLOCK_SIZE)%Z ->
  Forall (fun pr : list Z * Z => (len (fst pr) <= BLOCK_SIZE)%Z)
    (split_loop BLOCK_SIZE eos_token_id split_value t).
Proof.
  intros HB.
  funelim (split_loop BLOCK_SIZE eos_token_id split_value t);
    try (constructor; fail).
  constructor; [| auto]. simpl. rewrite len_app. unfold len at 1.
  assert (Hin : masked_max BLOCK_SIZE (d :: ds) < length t).
  { rewrite <- Hdots. apply masked_max_in_range. rewrite Hdots. discriminate. }
  rewrite length_upto by lia.
  destruct (masked_max_cases BLOCK_SIZE (d :: ds)) as [-> | [_ Hlim]].
  - change (len [eos_token_id]) with 1%Z. lia.
  - change (len [eos_token_id]) with 1%Z. lia.
Qed.

Lemma tokenized_fits (BLOCK_SIZE eos_token_id split_value : Z)
  (raw_tokenized : list (list Z)) :
  (1 <= BLOCK_SIZE)%Z ->
  Forall (fun s => (len s <= BLOCK_SIZE)%Z)
    (tokenized_of BLOCK_SIZE eos_token_id split_value raw_tokenized).
Proof.
  intros HB. unfold tokenized_of, split_batch. apply Forall_map.
  induction raw_tokenized as [|t r IH]; simpl; [constructor |].
  apply Forall_app. split; [| exact IH].
  unfold split_one. destruct (Z.leb_spec (len t) (BLOCK_SIZE - 1)) as [Hle | Hgt].
  - constructor; [| constructor]. simpl. rewrite len_app.
    change (len [eos_token_id]) with 1%Z. lia.
  - apply split_loop_fits. exact HB.
Qed.

(** For a capacity of at least one token, [map_to_batch] raises nothing
    on any batch and saves, in bin order, Blocks of BLOCK_SIZE entries. *)
Lemma map_to_batch_saves (BLOCK_SIZE : Z) (SLICE_SIZE : nat)
  (eos_token_id split_value : Z) (raw_tokenized : list (list Z)) (idx0 : nat) :
  (1 <= BLOCK_SIZE)%Z ->
  exists files,
    map_to_batch BLOCK_SIZE SLICE_SIZE eos_token_id split_value raw_tokenized idx0
    = Some files
    /\ Forall (fun blk : list Z * list Z =>
                 len (fst blk) = BLOCK_SIZE /\ len (snd blk) = BLOCK_SIZE)
         (concat (map (fun f => rows (snd f)) files)).
Proof.
  intros HB. unfold map_to_batch.
  destruct (lengths_of_tokenized BLOCK_SIZE eos_token_id split_value raw_tokenized)
    as [-> _].
  pose proof (tokenized_fits BLOCK_SIZE eos_token_id split_value raw_tokenized HB)
    as Hfits.
  set (tokenized := tokenized_of BLOCK_SIZE eos_token_id split_value raw_tokenized) in *.
  assert (Hshape : forall b,
            In b (bins (pack BLOCK_SIZE (map len tokenized))) ->
            len (fst (build_block BLOCK_SIZE eos_token_id tokenized b)) = BLOCK_SIZE
            /\ len (snd (build_block BLOCK_SIZE eos_token_id tokenized b)) = BLOCK_SIZE).
  { intros b Hb. destruct (pack_capacity BLOCK_SIZE tokenized b Hfits Hb).
    destruct (block_shape BLOCK_SIZE eos_token_id tokenized b) as (H1 & H2 & _);
      auto. }
  destruct (pack_and_save_saves BLOCK_SIZE SLICE_SIZE eos_token_id tokenized idx0
              (Z.to_nat BLOCK_SIZE) (map len tokenized)) as (files & E & Hrows & _).
  { apply Forall_forall. intros b Hb. destruct (Hshape b Hb) as [H1 H2].
    unfold len in H1, H2. lia. }
  exists files. split; [exact E |]. rewrite Hrows.
  apply Forall_map. apply Forall_forall. exact Hshape.
Qed.

(** ** A sequence longer than BLOCK_SIZE at the Packer *)





(** ** Re-slicer *)

Lemma path_eqb_eq (p q : path) : path_eqb p q = true <-> p = q.
Proof.
  destruct p, q; simpl; try (split; [discriminate | congruence]).
  - rewrite andb_true_iff, !Nat.eqb_eq. split; [intros [-> ->]; reflexivity |].
    intros E. injection E as -> ->. split; reflexivity.
  - rewrite Nat.eqb_eq. split; [intros ->; reflexivity | congruence].
  - rewrite Nat.eqb_eq. split; [intros ->; reflexivity | congruence].
Qed.

Lemma path_eqb_neq (p q : path) : p <> q -> path_eqb p q = false.
Proof.
  intros H. destruct (path_eqb p q) eqn:E; [| reflexivity].
  apply path_eqb_eq in E. contradiction.
Qed.

Lemma path_eqb_rest_reslice (f : path) (c : nat) :
  is_rest f = true -> path_eqb f (ResliceFile c) = false
                      /\ path_eqb (ResliceFile c) f = false.
Proof. destruct f; simpl; try discriminate. split; reflexivity. Qed.

Lemma pop_spec {A : Type} (l : list A) :
  match pop l with
  | None => l = []
  | Some (x, r) => l = r ++ [x]
  end.
Proof.
  unfold pop. destruct (rev l) as [|x r] eqn:E.
  - rewrite <- (rev_involutive l), E. reflexivity.
  - rewrite <- (rev_involutive l), E. reflexivity.
Qed.

Lemma pending_snoc (d : disk) (files : list path) (f : path)
  (proj : tensor_dict -> list (list Z)) (td : tensor_dict) :
  d f = Some td ->
  pending d (files ++ [f]) proj = proj td ++ pending d files proj.
Proof.
  intros H. unfold pending. rewrite rev_app_distr. simpl. rewrite H. reflexivity.
Qed.

Lemma cat_same_width (width : nat) (buffer : list (list (list Z))) :
  Forall (fun r => length r = width) (concat buffer) ->
  cat buffer = Some (concat buffer).
Proof.
  intros H. unfold cat. rewrite (same_width_of_Forall width _ H). reflexivity.
Qed.

Lemma Forall_upto {A : Type} (P : A -> Prop) (n : nat) (l : list A) :
  Forall P l -> Forall P (upto n l).
Proof.
  intros H. rewrite <- (upto_from n l) in H. apply Forall_app in H. tauto.
Qed.

Lemma Forall_from {A : Type} (P : A -> Prop) (n : nat) (l : list A) :
  Forall P l -> Forall P (from n l).
Proof.
  intros H. rewrite <- (upto_from n l) in H. apply Forall_app in H. tauto.
Qed.

Lemma length_from {A : Type} (n : nat) (l : list A) :
  length (from n l) = length l - n.
Proof. unfold from. apply length_skipn. Qed.

Lemma concat_single {A : Type} (l : list A) : concat [l] = l.
Proof. simpl. apply app_nil_r. Qed.

Lemma concat_snoc {A : Type} (ls : list (list A)) (l : list A) :
  concat (ls ++ [l]) = concat ls ++ l.
Proof. rewrite concat_app, concat_single. reflexivity. Qed.

Section ReslicerFacts.

Variable SLICE_SIZE : nat.
Variable width : nat.
Variable d0 : disk.
Variable files0 : list path.

Hypothesis slice_positive : 0 < SLICE_SIZE.
Hypothesis leftovers : leftovers_ok width d0 files0.

Local Abbreviation inv := (reslicing SLICE_SIZE width d0 files0).

Ltac fields :=
  cbn [all_files input_buffer pos_buffer buffer_length counter fs emitted pc].

Lemma start_reslicing : inv (start d0 files0).
Proof.
  constructor; simpl; try reflexivity; try constructor; try lia.
  - exists []. rewrite app_nil_r. reflexivity.
  - intros f Hf Hnot _. contradiction.
Qed.

Lemma take_file_keeps (s s' : reslicer) :
  inv s -> pc s = AtFiles -> take_file s = Continue s' -> inv s'.
Proof.
  intros [Hl Hd _ Hc Hp Hiw Hpw Hik Hpk Hfull Hdr Hcnt Hsh Hrm Hb Hun] Hpc.
  unfold take_file. pose proof (pop_spec (all_files s)) as Hpop.
  destruct (pop (all_files s)) as [[file rest]|]; [| discriminate].
  destruct Hl as [popped Hl]. rewrite Hpop in Hl.
  assert (Hin : In file files0).
  { rewrite Hl. apply in_or_app. left. apply in_or_app. right. left. reflexivity. }
  destruct leftovers as [Hnd Hfiles].
  destruct (Hfiles file Hin) as (Hrest & td & Htd & Hlen & Hw1 & Hw2).
  assert (Hfs : fs s file = Some td).
  { rewrite Hd; [exact Htd |]. rewrite Hpop. apply in_or_app. right. left. reflexivity. }
  rewrite Hfs. intros E. injection E as <-.
  assert (Hnot : ~ In file rest).
  { rewrite Hl, <- app_assoc in Hnd. apply NoDup_remove_2 in Hnd.
    intros H. apply Hnd. apply in_or_app. left. exact H. }
  specialize (Hdr Hpc).
  constructor; fields.
  - exists ([file] ++ popped). rewrite Hl, <- app_assoc. reflexivity.
  - intros f Hf. apply Hd. rewrite Hpop. apply in_or_app. left. exact Hf.
  - split; [exact Hin | split; [congruence | exact Hnot]].
  - rewrite concat_snoc, length_app. lia.
  - rewrite !concat_snoc, !length_app. lia.
  - rewrite concat_snoc. apply Forall_app. split; assumption.
  - rewrite concat_snoc. apply Forall_app. split; assumption.
  - rewrite <- Hik, Hpop, (pending_snoc d0 rest file input_ids td Htd), concat_snoc.
    rewrite <- !app_assoc. reflexivity.
  - rewrite <- Hpk, Hpop, (pending_snoc d0 rest file position_ids td Htd), concat_snoc.
    rewrite <- !app_assoc. reflexivity.
  - exact Hfull.
  - discriminate.
  - exact Hcnt.
  - exact Hsh.
  - intros f Hf Hnf Hpcf. apply Hrm; [exact Hf | | rewrite Hpc; discriminate].
    rewrite Hpop. intros H. apply in_app_or in H. destruct H as [H | [H | []]].
    + contradiction.
    + apply Hpcf. rewrite H. reflexivity.
  - intros Hsmall. specialize (Hsmall file td Hin Htd). lia.
  - exact Hun.
Qed.

Lemma slice_keeps (s s' : reslicer) (file : path) :
  inv s -> pc s = AtSlices file -> slice_or_remove SLICE_SIZE s file = Continue s' ->
  inv s'.
Proof.
  intros [Hl Hd Hdr Hc Hp Hiw Hpw Hik Hpk Hfull _ Hcnt Hsh Hrm Hb Hun] Hpc.
  rewrite Hpc in Hdr. destruct Hdr as (Hin & Hfs & Hnot).
  destruct leftovers as [Hnd Hfiles].
  assert (Hrest : forall f, In f files0 -> forall c, path_eqb f (ResliceFile c) = false).
  { intros f Hf c. destruct (Hfiles f Hf) as [Hr _].
    apply path_eqb_rest_reslice. exact Hr. }
  assert (Hlisted : forall f, In f (all_files s) -> In f files0).
  { intros f Hf. destruct Hl as [popped ->]. apply in_or_app. left. exact Hf. }
  unfold slice_or_remove. destruct (Nat.leb_spec SLICE_SIZE (buffer_length s)) as [Hge | Hlt].
  - rewrite (cat_same_width width _ Hiw), (cat_same_width width _ Hpw).
    intros E. injection E as <-.
    constructor; fields.
    + exact Hl.
    + intros f Hf. unfold disk_write. rewrite (Hrest f (Hlisted f Hf)). apply Hd. exact Hf.
    + split; [exact Hin | split; [| exact Hnot]].
      unfold disk_write. rewrite (Hrest file Hin). exact Hfs.
    + rewrite concat_single. reflexivity.
    + rewrite !concat_single, !length_from. lia.
    + rewrite concat_single. apply Forall_from. exact Hiw.
    + rewrite concat_single. apply Forall_from. exact Hpw.
    + rewrite <- Hik, map_app, concat_app, concat_single.
      cbn [map concat input_ids]. rewrite app_nil_r.
      rewrite <- (upto_from SLICE_SIZE (concat (input_buffer s))) at 3.
      rewrite <- !app_assoc. reflexivity.
    + rewrite <- Hpk, map_app, concat_app, concat_single.
      cbn [map concat position_ids]. rewrite app_nil_r.
      rewrite <- (upto_from SLICE_SIZE (concat (pos_buffer s))) at 3.
      rewrite <- !app_assoc. reflexivity.
    + apply Forall_app. split; [exact Hfull |]. constructor; [| constructor].
      simpl. rewrite !length_upto by lia. split; reflexivity.
    + discriminate.
    + rewrite length_app. simpl. lia.
    + intros c Hlt. unfold disk_write. simpl.
      destruct (Nat.eqb_spec c (counter s)) as [-> | Hne].
      * rewrite Hcnt, nth_error_app2, Nat.sub_diag by lia. reflexivity.
      * rewrite nth_error_app1 by lia. apply Hsh. lia.
    + intros f Hf Hnf Hpcf. unfold disk_write. rewrite (Hrest f Hf).
      apply Hrm; assumption || (rewrite Hpc; exact Hpcf).
    + intros Hsmall. specialize (Hb Hsmall). rewrite length_from. lia.
    + intros p Hp' Hc'. unfold disk_write. rewrite path_eqb_neq.
      * apply Hun; [exact Hp' |]. intros c Hlt. apply Hc'. lia.
      * apply Hc'. lia.
  - destruct (fs s file) as [td|] eqn:Efs; [| discriminate].
    intros E. injection E as <-.
    constructor; fields; try assumption.
    + intros f Hf. unfold disk_remove. rewrite path_eqb_neq; [apply Hd; exact Hf |].
      intros ->. contradiction.
    + exact I.
    + intros _. exact Hlt.
    + intros c Hc'. unfold disk_remove.
      destruct (Hfiles file Hin) as [Hr _].
      destruct (path_eqb_rest_reslice file c Hr) as [_ ->]. apply Hsh. exact Hc'.
    + intros f Hf Hnf _. unfold disk_remove.
      destruct (path_eqb f file) eqn:Eq; [reflexivity |].
      apply Hrm; [exact Hf | exact Hnf |].
      rewrite Hpc. intros E. injection E as ->.
      rewrite (proj2 (path_eqb_eq f f) eq_refl) in Eq. discriminate.
    + intros p Hp' Hc'. unfold disk_remove. rewrite path_eqb_neq.
      * apply Hun; assumption.
      * intros ->. contradiction.
Qed.

Lemma step_keeps (s s' : reslicer) :
  inv s -> step SLICE_SIZE s = Continue s' -> inv s'.
Proof.
  intros Hinv. unfold step. destruct (pc s) as [|file] eqn:Hpc.
  - apply take_file_keeps; assumption.
  - apply slice_keeps; assumption.
Qed.

Lemma reaches_keeps (s s' : reslicer) :
  inv s -> reaches SLICE_SIZE s s' -> inv s'.
Proof.
  intros Hinv Hr. induction Hr as [| s1 s2 Hr IH Hstep]; [exact Hinv |].
  eapply step_keeps; eassumption.
Qed.

Lemma reaches_trans (s1 s2 s3 : reslicer) :
  reaches SLICE_SIZE s1 s2 -> reaches SLICE_SIZE s2 s3 -> reaches SLICE_SIZE s1 s3.
Proof.
  intros H12 H23. induction H23 as [| sa sb Hr IH Hstep]; [exact H12 |].
  econstructor; eassumption.
Qed.

(** No read, concatenation or removal fails. *)
Lemma step_no_raise (s : reslicer) : inv s -> step SLICE_SIZE s <> Raise.
Proof.
  intros [Hl Hd Hdr Hc Hp Hiw Hpw Hik Hpk Hfull _ Hcnt Hsh Hrm Hb Hun].
  unfold step. destruct (pc s) as [|file].
  - unfold take_file. pose proof (pop_spec (all_files s)) as Hpop.
    destruct (pop (all_files s)) as [[file rest]|]; [| discriminate].
    destruct Hl as [popped Hl]. destruct leftovers as [_ Hfiles].
    assert (Hin : In file (all_files s)).
    { rewrite Hpop. apply in_or_app. right. left. reflexivity. }
    rewrite (Hd file Hin).
    destruct (Hfiles file) as (_ & td & -> & _); [| discriminate].
    rewrite Hl. apply in_or_app. left. exact Hin.
  - destruct Hdr as (_ & Hfs & _). unfold slice_or_remove.
    rewrite (cat_same_width width _ Hiw), (cat_same_width width _ Hpw).
    destruct (Nat.leb SLICE_SIZE (buffer_length s)); [discriminate |].
    destruct (fs s file); [discriminate | congruence].
Qed.

(** Each step brings the end nearer. *)
Lemma step_decreases (s s' : reslicer) :
  inv s -> step SLICE_SIZE s = Continue s' -> steps_left d0 s' < steps_left d0 s.
Proof.
  intros [Hl Hd Hdr Hc Hp Hiw Hpw Hik Hpk Hfull _ Hcnt Hsh Hrm Hb Hun].
  unfold step, steps_left. destruct (pc s) as [|file].
  - unfold take_file. pose proof (pop_spec (all_files s)) as Hpop.
    destruct (pop (all_files s)) as [[file rest]|]; [| discriminate].
    assert (Hin : In file (all_files s)).
    { rewrite Hpop. apply in_or_app. right. left. reflexivity. }
    rewrite (Hd file Hin). destruct (d0 file) as [td|] eqn:Htd; [| discriminate].
    intros E. injection E as <-. simpl.
    rewrite Hpop, (pending_snoc d0 rest file input_ids td Htd), !length_app.
    simpl. lia.
  - unfold slice_or_remove.
    rewrite (cat_same_width width _ Hiw), (cat_same_width width _ Hpw).
    destruct (Nat.leb_spec SLICE_SIZE (buffer_length s)) as [Hge | Hlt].
    + intros E. injection E as <-. simpl. rewrite length_from. lia.
    + destruct (fs s file); [| discriminate].
      intros E. injection E as <-. simpl. lia.
Qed.

Lemma step_return (s s' : reslicer) :
  step SLICE_SIZE s = Return s' -> s' = s /\ pc s = AtFiles /\ all_files s = [].
Proof.
  unfold step. destruct (pc s) as [|file].
  - unfold take_file. pose proof (pop_spec (all_files s)) as Hpop.
    destruct (pop (all_files s)) as [[file rest]|].
    + destruct (fs s file); discriminate.
    + intros E. injection E as <-. auto.
  - unfold slice_or_remove.
    destruct (Nat.leb SLICE_SIZE (buffer_length s)).
    + destruct (cat (input_buffer s)), (cat (pos_buffer s)); discriminate.
    + destruct (fs s file); discriminate.
Qed.

(** With enough steps allowed the run returns. *)
Lemma run_returns (n : nat) (s : reslicer) :
  inv s -> steps_left d0 s < n ->
  exists s', run SLICE_SIZE n s = Return s'
             /\ reaches SLICE_SIZE s s' /\ pc s' = AtFiles /\ all_files s' = [].
Proof.
  revert s. induction n as [|n IH]; intros s Hinv Hn; [lia |].
  simpl. destruct (step SLICE_SIZE s) as [s1 | s1 |] eqn:Hstep.
  - destruct (IH s1) as (s' & Hrun & Hr & Hpc & Hfiles).
    + eapply step_keeps; eassumption.
    + pose proof (step_decreases s s1 Hinv Hstep). lia.
    + exists s'. split; [exact Hrun | split; [| split; assumption]].
      eapply reaches_trans; [| exact Hr].
      econstructor; [constructor | exact Hstep].
  - destruct (step_return s s1 Hstep) as (-> & Hpc & Hfiles).
    exists s. split; [reflexivity | split; [constructor | split; assumption]].
  - exfalso. exact (step_no_raise s Hinv Hstep).
Qed.

Lemma process_rest_returns :
  exists s, process_rest SLICE_SIZE d0 files0 = Return s
            /\ reaches SLICE_SIZE (start d0 files0) s
            /\ inv s /\ pc s = AtFiles /\ all_files s = [].
Proof.
  unfold process_rest.
  destruct (run_returns (S (steps_left d0 (start d0 files0))) (start d0 files0)
              start_reslicing (Nat.lt_succ_diag_r _)) as (s & Hrun & Hr & Hpc & Hfiles).
  exists s. split; [exact Hrun | split; [exact Hr | split; [| split; assumption]]].
  eapply reaches_keeps; [apply start_reslicing | exact Hr].
Qed.

End ReslicerFacts.

Lemma run_stable (SLICE_SIZE n m : nat) (s s' : reslicer) :
  run SLICE_SIZE n s = Return s' -> n <= m -> run SLICE_SIZE m s = Return s'.
Proof.
  revert m s. induction n as [|n IH]; intros m s Hrun Hle; simpl in Hrun.
  - discriminate.
  - destruct m as [|m]; [lia |]. simpl.
    destruct (step SLICE_SIZE s) as [s1 | s1 |]; try exact Hrun.
    apply IH; [exact Hrun | lia].
Qed.

Lemma full_shards_count (SLICE_SIZE : nat) (shards : list tensor_dict) :
  Forall (fun td => length (input_ids td) = SLICE_SIZE
                    /\ length (position_ids td) = SLICE_SIZE) shards ->
  length (concat (map input_ids shards)) = SLICE_SIZE * length shards.
Proof.
  induction 1 as [|td r [H1 _] Hr IH]; simpl; [lia |].
  rewrite length_app, IH, H1. lia.
Qed.

Lemma scenario2_leftovers : leftovers_ok 2 scenario2_disk scenario2_files.
Proof.
  split.
  - constructor; [intros [E | []]; discriminate E |].
    constructor; [intros [] | constructor].
  - intros f [<- | [<- | []]]; (split; [reflexivity |]); eexists;
      (split; [reflexivity |]); repeat split; repeat constructor.
Qed.

(** Scenario 2 of the specification: SLICE_SIZE = 3, shard A of 4 Blocks
    and shard B of 5 Blocks give 3 shards and no remainder; A and B are
    removed. *)
Example scenario2_three_shards :
  match process_rest 3 scenario2_disk scenario2_files with
  | Return s =>
      map input_ids (emitted s)
      = [[[1; 1]; [2; 2]; [3; 3]]; [[4; 4]; [5; 5]; [6; 6]];
         [[7; 7]; [8; 8]; [9; 9]]]%Z
      /\ buffer_length s = 0 /\ counter s = 3
      /\ fs s (RestFile 0) = None /\ fs s (RestFile 1) = None
  | _ => False
  end.
Proof. vm_compute. repeat split. Qed.

(** C2: for every run of the Reslicer over distinct leftover shard files,
    the run returns, having consumed every file; the Blocks of the output
    shards, in the order written, followed by the Blocks left in the
    buffer are exactly the Blocks of the leftover shards in the order
    consumed, token arrays and position arrays alike, so no Block is lost
    or duplicated and each Block outside the final remainder is in exactly
    one output shard; every output shard holds exactly SLICE_SIZE Blocks
    and is on disk under its counter, the remainder is smaller than
    SLICE_SIZE and is written nowhere, and SLICE_SIZE times the number of
    output shards plus the remainder equals the number of Blocks
    consumed. *)
Theorem reslicer_keeps_every_block
  (SLICE_SIZE width : nat) (d0 : disk) (files : list path) :
  0 < SLICE_SIZE ->
  leftovers_ok width d0 files ->
  exists s,
    process_rest SLICE_SIZE d0 files = Return s
    /\ (forall n, steps_left d0 (start d0 files) < n ->
                  run SLICE_SIZE n (start d0 files) = Return s)
    /\ all_files s = []
    /\ concat (map input_ids (emitted s)) ++ concat (input_buffer s)
       = pending d0 files input_ids
    /\ concat (map position_ids (emitted s)) ++ concat (pos_buffer s)
       = pending d0 files position_ids
    /\ Forall (fun td => length (input_ids td) = SLICE_SIZE
                         /\ length (position_ids td) = SLICE_SIZE) (emitted s)
    /\ length (concat (input_buffer s)) = buffer_length s
    /\ length (concat (pos_buffer s)) = buffer_length s
    /\ buffer_length s < SLICE_SIZE
    /\ SLICE_SIZE * length (emitted s) + buffer_length s
       = length (pending d0 files input_ids)
    /\ (forall c, c < length (emitted s) ->
                  fs s (ResliceFile c) = nth_error (emitted s) c)
    /\ (forall p, ~ In p files ->
                  (forall c, c < length (emitted s) -> p <> ResliceFile c) ->
                  fs s p = d0 p)
    /\ (forall f, In f files -> fs s f = None).
Proof.
  intros HS Hok.
  destruct (process_rest_returns SLICE_SIZE width d0 files HS Hok)
    as (s & Hrun & Hr & Hinv & Hpc & Hfiles).
  destruct Hinv as [Hl Hd Hdr Hc Hp Hiw Hpw Hik Hpk Hfull Hlt Hcnt Hsh Hrm Hb Hun].
  rewrite Hfiles in Hik, Hpk. unfold pending at 1 in Hik. unfold pending at 1 in Hpk.
  simpl in Hik, Hpk. rewrite app_nil_r in Hik, Hpk.
  exists s. repeat split; try assumption.
  - intros n Hn. apply (run_stable SLICE_SIZE _ n _ _ Hrun). lia.
  - symmetry. exact Hc.
  - rewrite Hp. symmetry. exact Hc.
  - apply Hlt. exact Hpc.
  - rewrite <- Hik, length_app, (full_shards_count SLICE_SIZE _ Hfull). lia.
  - intros c Hc'. apply Hsh. rewrite Hcnt. exact Hc'.
  - intros p Hp' Hc'. apply Hun; [exact Hp' |]. rewrite Hcnt. exact Hc'.
  - intros f Hf. apply Hrm; [exact Hf | rewrite Hfiles; intros [] | rewrite Hpc; discriminate].
Qed.

Lemma reslicer_keeps_every_block_witness :
  exists s, process_rest 3 scenario2_disk scenario2_files = Return s
            /\ 3 * length (emitted s) + buffer_length s
               = length (pending scenario2_disk scenario2_files input_ids).
Proof.
  destruct (reslicer_keeps_every_block 3 2 scenario2_disk scenario2_files
              (le_S _ _ (le_S _ _ (le_n 1))) scenario2_leftovers)
    as (s & Hrun & _ & _ & _ & _ & _ & _ & _ & _ & Hcount & _).
  exists s. split; [exact Hrun | exact Hcount].
Defined.

(** C7: in every run of the Reslicer over leftover shards of fewer than
    SLICE_SIZE Blocks each, every state the run goes through holds at
    most 2 * SLICE_SIZE - 1 Blocks in the rolling buffer, the running
    count being the number of Blocks really buffered; and whenever a
    file's Blocks have been folded in and all possible full shards
    emitted, that is at every test of the outer loop, fewer than
    SLICE_SIZE Blocks are buffered.  The run returns, so these states
    are all the states there are. *)
Theorem reslicer_buffer_bounded
  (SLICE_SIZE width : nat) (d0 : disk) (files : list path) :
  0 < SLICE_SIZE ->
  leftovers_ok width d0 files ->
  small_leftovers SLICE_SIZE d0 files ->
  (forall s,
     reaches SLICE_SIZE (start d0 files) s ->
     buffer_length s <= 2 * SLICE_SIZE - 1
     /\ length (concat (input_buffer s)) = buffer_length s
     /\ length (concat (pos_buffer s)) = buffer_length s
     /\ (pc s = AtFiles -> buffer_length s < SLICE_SIZE))
  /\ exists s, process_rest SLICE_SIZE d0 files = Return s
               /\ reaches SLICE_SIZE (start d0 files) s
               /\ buffer_length s < SLICE_SIZE.
Proof.
  intros HS Hok Hsmall. split.
  - intros s Hr.
    pose proof (reaches_keeps SLICE_SIZE width d0 files HS Hok _ _
                  (start_reslicing SLICE_SIZE width d0 files HS) Hr) as Hinv.
    destruct Hinv as [Hl Hd Hdr Hc Hp Hiw Hpw Hik Hpk Hfull Hlt Hcnt Hsh Hrm Hb Hun].
    specialize (Hb Hsmall). repeat split; try lia. exact Hlt.
  - destruct (process_rest_returns SLICE_SIZE width d0 files HS Hok)
      as (s & Hrun & Hr & Hinv & Hpc & Hfiles).
    exists s. split; [exact Hrun | split; [exact Hr |]].
    destruct Hinv as [_ _ _ _ _ _ _ _ _ _ Hlt _ _ _ _ _]. apply Hlt. exact Hpc.
Qed.

Lemma scenario2_small : small_leftovers 6 scenario2_disk scenario2_files.
Proof.
  intros f td [<- | [<- | []]] E; simpl in E; injection E as <-; simpl; lia.
Defined.

Lemma reslicer_buffer_bounded_witness :
  exists s, process_rest 6 scenario2_disk scenario2_files = Return s
            /\ buffer_length s < 6.
Proof.
  destruct (reslicer_buffer_bounded 6 2 scenario2_disk scenario2_files
              (le_S _ _ (le_S _ _ (le_S _ _ (le_S _ _ (le_S _ _ (le_n 1))))))
              scenario2_leftovers scenario2_small)
    as (_ & s & Hrun & _ & Hlt).
  exists s. split; [exact Hrun | exact Hlt].
Defined.

(** * Further properties of the splitter *)

(** X1: the pieces the splitting loop emits are consecutive stretches of
    its input, in order: the input is piece, cut token, piece, cut token,
    ..., followed by what is left when the loop ends; each emitted
    sub-sequence is one piece followed by the terminator, with recorded
    length piece length + 1; the token at a cut is the boundary token,
    unless the cut is at position 0.  So no input token is emitted twice,
    out of order, or in another sequence's place. *)
Theorem split_loop_in_order
  (BLOCK_SIZE eos_token_id split_value : Z) (t : list Z) :
  exists (cuts : list (list Z * Z)) (left_over : list Z),
    t = stretch cuts ++ left_over
    /\ split_loop BLOCK_SIZE eos_token_id split_value t
       = map (fun pc : list Z * Z =>
                (fst pc ++ [eos_token_id], (len (fst pc) + 1)%Z)) cuts
    /\ Forall (fun pc : list Z * Z => snd pc = split_value \/ fst pc = []) cuts.
Proof.
  funelim (split_loop BLOCK_SIZE eos_token_id split_value t).
  - exists [], t. repeat split. constructor.
  - exists [], t. repeat split. constructor.
  - destruct H as (cuts & left_over & Ht & Hloop & Hcuts).
    assert (Hin : masked_max BLOCK_SIZE (d :: ds) < length t).
    { rewrite <- Hdots. apply masked_max_in_range. rewrite Hdots. discriminate. }
    destruct (nth_error t (masked_max BLOCK_SIZE (d :: ds))) as [c|] eqn:Hc;
      [| apply nth_error_None in Hc; lia].
    exists ((upto (masked_max BLOCK_SIZE (d :: ds)) t, c) :: cuts), left_over.
    split; [| split].
    + simpl. rewrite <- app_assoc. simpl. rewrite <- Ht. apply cut_at. exact Hc.
    + simpl. rewrite Hloop. unfold len at 2. rewrite length_upto by lia. reflexivity.
    + constructor; [| exact Hcuts]. simpl.
      destruct (masked_max_cases BLOCK_SIZE (d :: ds)) as [E | [Hd _]].
      * right. rewrite E. reflexivity.
      * left. rewrite <- Hdots in Hd. apply argwhere_spec in Hd. congruence.
Qed.

Lemma split_loop_total (BLOCK_SIZE eos_token_id split_value : Z) (n : nat) :
  (2 <= BLOCK_SIZE)%Z ->
  forall t : list Z, length t < n ->
    (total (map snd (split_loop BLOCK_SIZE eos_token_id split_value t)) <= len t)%Z
    /\ ((BLOCK_SIZE - 1 < len t)%Z ->
        (total (map snd (split_loop BLOCK_SIZE eos_token_id split_value t)) < len t)%Z).
Proof.
  intros HB. induction n as [|n IH]; intros t Hn; [lia |].
  rewrite split_loop_body.
  destruct (Z.ltb_spec (BLOCK_SIZE - 1) (len t)) as [Hlong | Hshort].
  - destruct (argwhere split_value t) as [|d ds] eqn:Hdots.
    + simpl. unfold total. simpl. lia.
    + cbv zeta. set (sp := masked_max BLOCK_SIZE (d :: ds)).
      assert (Hin : sp < length t).
      { unfold sp. rewrite <- Hdots. apply masked_max_in_range.
        rewrite Hdots. discriminate. }
      assert (Hsp : (Z.of_nat sp <= BLOCK_SIZE - 2)%Z).
      { unfold sp. destruct (masked_max_cases BLOCK_SIZE (d :: ds)) as [-> | [_ H]]; lia. }
      assert (Hrest : len (from (S sp) t) = (len t - Z.of_nat sp - 1)%Z).
      { unfold len. rewrite length_from. lia. }
      destruct (IH (from (S sp) t)) as [Hle Hlt].
      { rewrite length_from. lia. }
      unfold total in *. cbn [map snd fold_right].
      destruct (Z.ltb_spec (BLOCK_SIZE - 1) (len (from (S sp) t))) as [Hl | Hs].
      * specialize (Hlt Hl). lia.
      * rewrite (split_loop_short _ _ _ _ Hs). cbn [map fold_right]. lia.
  - unfold total. simpl. pose proof (len_nonneg t). lia.
Qed.

(** X2: for a capacity of at least 2, the recorded lengths of the pieces
    cut from a sequence longer than BLOCK_SIZE - 1 tokens add up to less
    than its length: since each recorded length counts the piece and the
    one input token at its cut, at least one trailing token of every
    over-long sequence reaches no sub-sequence. *)
Theorem overlong_sequence_loses_tail
  (BLOCK_SIZE eos_token_id split_value : Z) (t : list Z) :
  (2 <= BLOCK_SIZE)%Z ->
  (BLOCK_SIZE - 1 < len t)%Z ->
  (total (map snd (split_one BLOCK_SIZE eos_token_id split_value t)) < len t)%Z.
Proof.
  intros HB Hlong. unfold split_one.
  destruct (Z.leb_spec (len t) (BLOCK_SIZE - 1)); [lia |].
  apply (split_loop_total BLOCK_SIZE eos_token_id split_value (S (length t)) HB t);
    [lia | exact Hlong].
Qed.

Lemma overlong_sequence_loses_tail_witness :
  (total (map snd (split_one 8 0 13 scenario3_tokens)) < len scenario3_tokens)%Z.
Proof.
  assert (HB : (2 <= 8)%Z) by (vm_compute; discriminate).
  exact (overlong_sequence_loses_tail 8 0 13 scenario3_tokens HB eq_refl).
Defined.

(** X3: when a remainder longer than BLOCK_SIZE - 1 tokens holds boundary
    tokens, but none before position BLOCK_SIZE - 1, the masked maximum is
    0: the splitter emits a sub-sequence made of the terminator alone, of
    recorded length 1, drops the first token of the remainder and goes on
    with the rest. *)
Theorem cut_at_zero_without_boundary_in_reach
  (BLOCK_SIZE eos_token_id split_value : Z) (t : list Z) (p : nat) :
  (BLOCK_SIZE - 1 < len t)%Z ->
  nth_error t p = Some split_value ->
  (forall q, nth_error t q = Some split_value -> (BLOCK_SIZE - 1 <= Z.of_nat q)%Z) ->
  split_loop BLOCK_SIZE eos_token_id split_value t
  = ([eos_token_id], 1%Z)
      :: split_loop BLOCK_SIZE eos_token_id split_value (from 1 t).
Proof.
  intros Hlong Hp Hfar.
  assert (Hdots : argwhere split_value t <> []).
  { intros E. apply argwhere_spec in Hp. rewrite E in Hp. exact Hp. }
  assert (Hzero : masked_max BLOCK_SIZE (argwhere split_value t) = 0).
  { destruct (masked_max_cases BLOCK_SIZE (argwhere split_value t)) as [E | [Hin Hlim]];
      [exact E |].
    apply argwhere_spec in Hin. apply Hfar in Hin. lia. }
  rewrite (split_loop_cut _ _ _ _ Hlong Hdots), Hzero. reflexivity.
Qed.

Lemma cut_at_zero_without_boundary_in_reach_witness :
  split_loop 8 0 13 [1; 2; 3; 4; 5; 6; 7; 8; 13]%Z
  = ([0%Z], 1%Z) :: split_loop 8 0 13 (from 1 [1; 2; 3; 4; 5; 6; 7; 8; 13]%Z).
Proof.
  assert (Hfar : forall q,
            nth_error [1; 2; 3; 4; 5; 6; 7; 8; 13]%Z q = Some 13%Z ->
            (8 - 1 <= Z.of_nat q)%Z).
  { intros q Hq.
    do 8 (destruct q as [|q]; [discriminate Hq |]). lia. }
  exact (cut_at_zero_without_boundary_in_reach 8 0 13
           [1; 2; 3; 4; 5; 6; 7; 8; 13]%Z 8 eq_refl eq_refl Hfar).
Defined.

Lemma split_loop_in_order_pieces
  (BLOCK_SIZE eos_token_id split_value : Z) (t : list Z) :
  exists cuts : list (list Z * Z),
    split_loop BLOCK_SIZE eos_token_id split_value t
    = map (fun pc : list Z * Z =>
             (fst pc ++ [eos_token_id], (len (fst pc) + 1)%Z)) cuts.
Proof.
  funelim (split_loop BLOCK_SIZE eos_token_id split_value t).
  - exists []. reflexivity.
  - exists []. reflexivity.
  - destruct H as (cuts & Hloop).
    assert (Hin : masked_max BLOCK_SIZE (d :: ds) < length t).
    { rewrite <- Hdots. apply masked_max_in_range. rewrite Hdots. discriminate. }
    exists ((upto (masked_max BLOCK_SIZE (d :: ds)) t, 0%Z) :: cuts).
    simpl. rewrite Hloop. unfold len at 2. rewrite length_upto by lia. reflexivity.
Qed.

(** X4: for a capacity of at least one token, whatever the batch, the two
    lists the splitter hands to the Packer go together: the recorded
    lengths are the lengths of the sub-sequences, and every sub-sequence
    ends with the terminator and has between 1 and BLOCK_SIZE tokens. *)
Theorem splitter_output_fits
  (BLOCK_SIZE eos_token_id split_value : Z) (raw_tokenized : list (list Z)) :
  (1 <= BLOCK_SIZE)%Z ->
  lengths_of BLOCK_SIZE eos_token_id split_value raw_tokenized
  = map len (tokenized_of BLOCK_SIZE eos_token_id split_value raw_tokenized)
  /\ Forall (fun s : list Z =>
               (1 <= len s <= BLOCK_SIZE)%Z
               /\ exists body, s = body ++ [eos_token_id])
       (tokenized_of BLOCK_SIZE eos_token_id split_value raw_tokenized).
Proof.
  intros HB.
  destruct (lengths_of_tokenized BLOCK_SIZE eos_token_id split_value raw_tokenized)
    as [Hlens _].
  split; [exact Hlens |].
  pose proof (tokenized_fits BLOCK_SIZE eos_token_id split_value raw_tokenized HB)
    as Hfits.
  apply Forall_forall. intros s Hs.
  rewrite Forall_forall in Hfits. specialize (Hfits s Hs).
  assert (Hend : exists body, s = body ++ [eos_token_id]).
  { unfold tokenized_of, split_batch in Hs. apply in_map_iff in Hs.
    destruct Hs as [[s' l] [<- Hs]]. apply in_flat_map in Hs.
    destruct Hs as [t [_ Hs]]. unfold split_one in Hs.
    destruct (len t <=? BLOCK_SIZE - 1)%Z.
    - destruct Hs as [E | []]. injection E as <- _. exists t. reflexivity.
    - destruct (split_loop_in_order_pieces BLOCK_SIZE eos_token_id split_value t)
        as (cuts & E).
      rewrite E in Hs. apply in_map_iff in Hs. destruct Hs as [pc [E' _]]. injection E' as <- _.
      exists (fst pc). reflexivity. }
  split; [| exact Hend].
  destruct Hend as [body ->]. rewrite len_app in *.
  pose proof (len_nonneg body). change (len [eos_token_id]) with 1%Z in *. lia.
Qed.

Lemma splitter_output_fits_witness :
  lengths_of 8 0 13 [[1; 2; 3]%Z; scenario3_tokens]
  = map len (tokenized_of 8 0 13 [[1; 2; 3]%Z; scenario3_tokens]).
Proof.
  assert (HB : (1 <= 8)%Z) by (vm_compute; discriminate).
  exact (proj1 (splitter_output_fits 8 0 13 [[1; 2; 3]%Z; scenario3_tokens] HB)).
Defined.

(** * Further properties of the Packer *)

Lemma length_enumerate_from (k : nat) (lengths : list Z) :
  length (enumerate_from k lengths) = length lengths.
Proof. revert k. induction lengths as [|l r IH]; intros k; simpl; auto. Qed.

Lemma map_fst_enumerate_from (k : nat) (lengths : list Z) :
  map fst (enumerate_from k lengths) = lengths.
Proof.
  revert k. induction lengths as [|l r IH]; intros k; simpl; [reflexivity |].
  rewrite IH. reflexivity.
Qed.

Lemma total_app (l m : list Z) : total (l ++ m) = (total l + total m)%Z.
Proof. unfold total. induction l as [|x r IH]; simpl; lia. Qed.

Lemma total_perm (l m : list Z) : Permutation l m -> total l = total m.
Proof.
  unfold total. induction 1; simpl; lia.
Qed.

Lemma total_occupied (bs : list (list item)) :
  total (map occupied bs) = total (map fst (concat bs)).
Proof.
  unfold item in *. unfold total.
  induction bs as [|b r IH]; simpl; [reflexivity |].
  rewrite IH, map_app, fold_right_app. unfold occupied.
  generalize (fold_right Z.add 0%Z (map fst (concat r))). intros z.
  induction b as [|it b' IHb]; simpl; lia.
Qed.

Lemma length_concat_nonempty {A : Type} (ls : list (list A)) :
  Forall (fun l => l <> []) ls -> length ls <= length (concat ls).
Proof.
  induction 1 as [|l r Hl Hr IH]; simpl; [lia |].
  rewrite length_app. destruct l; [congruence | simpl; lia].
Qed.

(** X5: whatever the lengths, packing is a bijection between the indexed
    lengths of the batch and the members of the bins: every sequence is in
    exactly one bin.  No bin is empty, so there are at most as many bins
    as sequences; the list of free capacities is as long as the list of
    bins; and the occupied lengths of the bins add up to the sum of the
    lengths. *)
Theorem every_sequence_in_one_bin (BLOCK_SIZE : Z) (lengths : list Z) :
  Permutation (concat (bins (pack BLOCK_SIZE lengths))) (enumerate_from 0 lengths)
  /\ Forall (fun b => b <> []) (bins (pack BLOCK_SIZE lengths))
  /\ length (bins (pack BLOCK_SIZE lengths)) <= length lengths
  /\ length (bin_space (pack BLOCK_SIZE lengths))
     = length (bins (pack BLOCK_SIZE lengths))
  /\ total (map occupied (bins (pack BLOCK_SIZE lengths))) = total lengths.
Proof.
  destruct (pack_refines BLOCK_SIZE lengths) as (st & E & Hsteps).
  rewrite E. unfold unzip. cbn [bins bin_space].
  assert (Hperm : Permutation (concat (map fst st)) (enumerate_from 0 lengths)).
  { rewrite (first_fit_steps_members _ _ _ _ Hsteps). simpl.
    apply indexed_lengths_perm. }
  assert (Hne : Forall (fun b : list item => b <> []) (map fst st)).
  { apply Forall_map.
    apply (first_fit_steps_keep (fun bs => fst bs <> []) BLOCK_SIZE _ [] st Hsteps);
      [| constructor].
    intros it _. simpl. split; [| discriminate].
    intros b s _ _ H. apply app_eq_nil in H. destruct H as [_ H]. discriminate. }
  split; [exact Hperm | split; [exact Hne | split; [| split]]].
  - rewrite <- (length_enumerate_from 0 lengths), <- (Permutation_length Hperm).
    apply length_concat_nonempty. exact Hne.
  - rewrite !length_map. reflexivity.
  - rewrite total_occupied, <- (map_fst_enumerate_from 0 lengths).
    apply total_perm. apply Permutation_map. exact Hperm.
Qed.

(** Replacing one element of a sorted list by one that stands in the same
    relations keeps the list sorted. *)
Lemma StronglySorted_replace {A : Type} (R : A -> A -> Prop)
  (pre post : list A) (x x' : A) :
  StronglySorted R (pre ++ x :: post) ->
  (forall z, R z x -> R z x') -> (forall z, R x z -> R x' z) ->
  StronglySorted R (pre ++ x' :: post).
Proof.
  intros Hs Hl Hr. induction pre as [|a pre IH]; simpl in *.
  - inversion Hs as [|? ? Hp Hx]; subst. constructor; [exact Hp |].
    eapply Forall_impl; [| exact Hx]. exact Hr.
  - inversion Hs as [|? ? Hp Ha]; subst. constructor; [apply IH; exact Hp |].
    apply Forall_app in Ha. destruct Ha as [Ha1 Ha2].
    inversion Ha2 as [|? ? Hax Hapost]; subst.
    apply Forall_app. split; [exact Ha1 |]. constructor; [apply Hl; exact Hax | exact Hapost].
Qed.

Lemma StronglySorted_snoc {A : Type} (R : A -> A -> Prop) (l : list A) (x : A) :
  StronglySorted R l -> Forall (fun z => R z x) l -> StronglySorted R (l ++ [x]).
Proof.
  induction 1 as [|a r Hr IH Ha]; intros Hx; simpl.
  - repeat constructor.
  - inversion Hx as [|? ? Hax Hrx]; subst. constructor; [apply IH; exact Hrx |].
    apply Forall_app. split; [exact Ha | constructor; [exact Hax | constructor]].
Qed.

Lemma StronglySorted_nth {A : Type} (R : A -> A -> Prop) (l : list A)
  (i j : nat) (x y : A) :
  StronglySorted R l -> i < j ->
  nth_error l i = Some x -> nth_error l j = Some y -> R x y.
Proof.
  intros Hs. revert i j. induction Hs as [|a r Hr IH Ha]; intros i j Hij Hi Hj.
  - destruct i; discriminate.
  - destruct j as [|j]; [lia |]. simpl in Hj. destruct i as [|i]; simpl in Hi.
    + injection Hi as <-. rewrite Forall_forall in Ha. apply Ha.
      eapply nth_error_In. exact Hj.
    + apply (IH i j); [lia | exact Hi | exact Hj].
Qed.

Lemma leader_app (b : list item) (it : item) :
  b <> [] -> leader (b ++ [it]) = leader b.
Proof. destruct b; [congruence | reflexivity]. Qed.

Lemma leader_le_occupied (b : list item) :
  b <> [] -> Forall (fun it : item => (0 <= fst it)%Z) b ->
  (leader b <= occupied b)%Z.
Proof.
  intros Hne Hall. destruct b as [|it r]; [congruence |].
  inversion Hall as [|? ? Hit Hr]; subst.
  pose proof (occupied_nonneg r Hr). unfold leader, occupied in *. simpl. lia.
Qed.

(** A bin opened later starts with a sequence that did not fit in any
    earlier bin, and free capacities only shrink. *)
Lemma first_fit_steps_no_fit (BLOCK_SIZE : Z) (its : list item)
  (st st' : list (list item * Z)) :
  first_fit_steps BLOCK_SIZE its st st' ->
  Forall (fun it : item => (0 <= fst it)%Z) its ->
  StronglySorted (fun x y : list item * Z => (snd x < leader (fst y))%Z) st ->
  Forall (fun bs : list item * Z => fst bs <> []) st ->
  StronglySorted (fun x y : list item * Z => (snd x < leader (fst y))%Z) st'
  /\ Forall (fun bs : list item * Z => fst bs <> []) st'.
Proof.
  intros Hsteps. induction Hsteps as [st | it its st st1 st2 Hstep Hsteps IH];
    intros Hpos Hs Hne; [split; assumption |].
  inversion Hpos as [|? ? Hit Hits]; subst.
  apply IH; [exact Hits | |].
  - inversion Hstep as [pre post b s Hpre Hfit | all Hall]; subst.
    + assert (Hb : b <> []).
      { apply Forall_app in Hne. destruct Hne as [_ Hne].
        inversion Hne; subst. assumption. }
      apply (StronglySorted_replace _ pre post (b, s)); [exact Hs | |].
      * intros z Hz. simpl in *. rewrite leader_app by exact Hb. exact Hz.
      * intros z Hz. simpl in *. lia.
    + apply StronglySorted_snoc; [exact Hs |].
      eapply Forall_impl; [| exact Hall]. intros z Hz. simpl. exact Hz.
  - apply (first_fit_step_keeps (fun bs => fst bs <> []) BLOCK_SIZE it st st1 Hstep);
      [| discriminate | exact Hne].
    intros b s _ _ H. apply app_eq_nil in H. destruct H as [_ H]. discriminate.
Qed.

(** X6: no two Blocks could have been merged: for any batch of
    sub-sequences, any two bins of the Packer together hold more than
    BLOCK_SIZE tokens, because the sequence that opened the later bin did
    not fit into the earlier one. *)
Theorem no_two_bins_fit_together
  (BLOCK_SIZE : Z) (tokenized : list (list Z)) (i j : nat) (b1 b2 : list item) :
  i < j ->
  nth_error (bins (pack BLOCK_SIZE (map len tokenized))) i = Some b1 ->
  nth_error (bins (pack BLOCK_SIZE (map len tokenized))) j = Some b2 ->
  (BLOCK_SIZE < len (combined_ids tokenized b1) + len (combined_ids tokenized b2))%Z
  /\ (BLOCK_SIZE < occupied b1 + occupied b2)%Z.
Proof.
  intros Hij H1 H2.
  assert (Hcons : forall b, In b (bins (pack BLOCK_SIZE (map len tokenized))) ->
            Forall (consistent tokenized) b).
  { intros b Hb. apply Forall_forall. intros it Hit.
    apply enumerated_consistent. eapply pack_members; eassumption. }
  pose proof (Hcons b1 (nth_error_In _ _ H1)) as Hc1.
  pose proof (Hcons b2 (nth_error_In _ _ H2)) as Hc2.
  destruct (combined_lengths tokenized b1 Hc1) as [-> _].
  destruct (combined_lengths tokenized b2 Hc2) as [-> _].
  assert (Hocc : (BLOCK_SIZE < occupied b1 + occupied b2)%Z); [| split; exact Hocc].
  destruct (pack_refines BLOCK_SIZE (map len tokenized)) as (st & E & Hsteps).
  rewrite E in H1, H2. unfold unzip in H1, H2. cbn [bins] in H1, H2.
  rewrite nth_error_map in H1, H2.
  destruct (nth_error st i) as [[b1' s1]|] eqn:E1; [| discriminate].
  destruct (nth_error st j) as [[b2' s2]|] eqn:E2; [| discriminate].
  simpl in H1, H2. injection H1 as ->. injection H2 as ->.
  assert (Hpos : Forall (fun it : item => (0 <= fst it)%Z)
                   (indexed_lengths (map len tokenized))).
  { apply Forall_forall. intros it Hit.
    rewrite (indexed_consistent tokenized it Hit). apply len_nonneg. }
  destruct (first_fit_steps_no_fit BLOCK_SIZE _ [] st Hsteps Hpos)
    as [Hs Hne]; [constructor | constructor |].
  pose proof (StronglySorted_nth _ st i j _ _ Hs Hij E1 E2) as Hlt. simpl in Hlt.
  pose (P := fun bs : list item * Z =>
               snd bs = (BLOCK_SIZE - occupied (fst bs))%Z
               /\ Forall (fun it : item => (0 <= fst it)%Z) (fst bs)).
  assert (HP : Forall P st).
  { apply (first_fit_steps_keep P BLOCK_SIZE _ [] st Hsteps); [| constructor].
    intros it Hit. rewrite Forall_forall in Hpos. specialize (Hpos it Hit).
    unfold P. simpl. split.
    - intros b s [Hs' Hall] _. rewrite occupied_app. split; [lia |].
      apply Forall_app. split; [exact Hall | constructor; [exact Hpos | constructor]].
    - unfold occupied. simpl. split; [lia | constructor; [exact Hpos | constructor]]. }
  rewrite Forall_forall in HP, Hne.
  destruct (HP _ (nth_error_In _ _ E1)) as [Hs1 _].
  destruct (HP _ (nth_error_In _ _ E2)) as [_ Hall2].
  pose proof (Hne _ (nth_error_In _ _ E2)) as Hne2.
  pose proof (leader_le_occupied b2 Hne2 Hall2). simpl in *. lia.
Qed.

Lemma no_two_bins_fit_together_witness :
  (8 < occupied [(5%Z, 0%nat); (3%Z, 1%nat)]
       + occupied [(3%Z, 2%nat); (2%Z, 3%nat)])%Z.
Proof.
  exact (proj2 (no_two_bins_fit_together 8
                  [[1; 2; 3; 4; 0]; [5; 6; 0]; [7; 8; 0]; [9; 0]]%Z 0 1
                  [(5%Z, 0); (3%Z, 1)] [(3%Z, 2); (2%Z, 3)]
                  (le_n 1) eq_refl eq_refl)).
Defined.

Lemma first_fit_steps_sorted (BLOCK_SIZE : Z) (its : list item)
  (st st' : list (list item * Z)) :
  first_fit_steps BLOCK_SIZE its st st' ->
  StronglySorted before its ->
  Forall (fun bs : list item * Z =>
            StronglySorted before (fst bs)
            /\ forall x y, In x (fst bs) -> In y its -> before x y) st ->
  Forall (fun bs : list item * Z => StronglySorted before (fst bs)) st'.
Proof.
  intros Hsteps. induction Hsteps as [st | it its st st1 st2 Hstep Hsteps IH];
    intros Hsorted Hst.
  - eapply Forall_impl; [| exact Hst]. intros bs [H _]. exact H.
  - inversion Hsorted as [|? ? Hr Hit]; subst. rewrite Forall_forall in Hit.
    apply IH; [exact Hr |].
    assert (Hweak : forall bs : list item * Z,
              (StronglySorted before (fst bs)
               /\ forall x y, In x (fst bs) -> In y (it :: its) -> before x y) ->
              StronglySorted before (fst bs)
              /\ forall x y, In x (fst bs) -> In y its -> before x y).
    { intros bs [H1 H2]. split; [exact H1 |].
      intros x y Hx Hy. apply H2; [exact Hx | right; exact Hy]. }
    inversion Hstep as [pre post b s Hpre Hfit | all Hall]; subst.
    + apply Forall_app in Hst. destruct Hst as [Hp Hrest].
      inversion Hrest as [|? ? [Hb1 Hb2] Hpost]; subst. simpl in Hb1, Hb2.
      apply Forall_app. split; [eapply Forall_impl; [exact Hweak | exact Hp] |].
      constructor; [| eapply Forall_impl; [exact Hweak | exact Hpost]].
      simpl. split.
      * apply StronglySorted_snoc; [exact Hb1 |]. apply Forall_forall.
        intros x Hx. apply Hb2; [exact Hx | left; reflexivity].
      * intros x y Hx Hy. apply in_app_or in Hx. destruct Hx as [Hx | [<- | []]].
        -- apply Hb2; [exact Hx | right; exact Hy].
        -- apply Hit. exact Hy.
    + apply Forall_app. split; [eapply Forall_impl; [exact Hweak | exact Hst] |].
      constructor; [| constructor]. simpl. split.
      * repeat constructor.
      * intros x y [<- | []] Hy. apply Hit. exact Hy.
Qed.

(** X7: inside every bin the members stand in the order the Packer took
    them: longest first, and sequences of equal length in their original
    order. *)
Theorem bin_members_longest_first
  (BLOCK_SIZE : Z) (lengths : list Z) (b : list item) :
  In b (bins (pack BLOCK_SIZE lengths)) ->
  StronglySorted before b
  /\ StronglySorted (fun x y : item => (fst y <= fst x)%Z) b.
Proof.
  intros Hb.
  destruct (pack_refines BLOCK_SIZE lengths) as (st & E & Hsteps).
  rewrite E in Hb. apply in_bins_unzip in Hb. destruct Hb as [s Hb].
  pose proof (first_fit_steps_sorted BLOCK_SIZE _ [] st Hsteps
                (indexed_lengths_sorted lengths) (Forall_nil _)) as H.
  rewrite Forall_forall in H. specialize (H _ Hb). simpl in H.
  split; [exact H | apply sorted_before_descending; exact H].
Qed.

Lemma bin_members_longest_first_witness :
  StronglySorted before [(3%Z, 2); (2%Z, 3)].
Proof.
  assert (Hb : In [(3%Z, 2); (2%Z, 3)] (bins (pack 8 [5; 3; 3; 2]%Z))).
  { right. left. reflexivity. }
  exact (proj1 (bin_members_longest_first 8 [5; 3; 3; 2]%Z [(3%Z, 2); (2%Z, 3)] Hb)).
Defined.

(** * Further properties of the shard writes *)

Lemma stack_some (tensors stacked : list (list Z)) :
  stack tensors = Some stacked ->
  stacked = tensors /\ tensors <> [] /\ same_width tensors = true.
Proof.
  unfold stack. destruct tensors as [|r rs]; [discriminate |].
  destruct (same_width (r :: rs)); [| discriminate].
  intros E. injection E as <-. repeat split. discriminate.
Qed.

Section WriterLayout.

Variable BLOCK_SIZE : Z.
Variable SLICE_SIZE : nat.
Variable eos_token_id : Z.
Variable tokenized : list (list Z).
Variable idx0 : nat.

Hypothesis slice_positive : 0 < SLICE_SIZE.

Local Abbreviation block := (build_block BLOCK_SIZE eos_token_id tokenized).

Lemma bin_step_layout (w w' : writer) (_bin : list item) :
  bin_step BLOCK_SIZE SLICE_SIZE eos_token_id tokenized idx0 w _bin = Some w' ->
  full_shards_saved SLICE_SIZE idx0 w ->
  full_shards_saved SLICE_SIZE idx0 w'
  /\ written w' = written w ++ [block _bin]
  /\ slice_counter w' * SLICE_SIZE + length (out_input_ids w')
     = S (slice_counter w * SLICE_SIZE + length (out_input_ids w)).
Proof.
  intros Hstep (Hnames & Hfull & Hlen & Hlt). unfold bin_step in Hstep.
  cbv zeta in Hstep. set (blk := block _bin) in *. clearbody blk.
  assert (Hcomb : combine (out_input_ids w ++ [fst blk])
                    (out_position_ids w ++ [snd blk])
                  = combine (out_input_ids w) (out_position_ids w) ++ [blk]).
  { rewrite combine_snoc by exact Hlen. destruct blk; reflexivity. }
  destruct (Nat.eqb_spec (length (out_input_ids w ++ [fst blk])) SLICE_SIZE)
    as [Heq | Hne].
  - destruct (stack (out_input_ids w ++ [fst blk])) as [i|] eqn:Ei; [| discriminate].
    destruct (stack (out_position_ids w ++ [snd blk])) as [p|] eqn:Ep; [| discriminate].
    apply stack_some in Ei. destruct Ei as (-> & _ & Hwi).
    apply stack_some in Ep. destruct Ep as (-> & _ & Hwp).
    injection Hstep as <-. rewrite length_app in Heq. simpl in Heq.
    split; [| split].
    + unfold full_shards_saved.
      cbn [saved slice_counter out_input_ids out_position_ids].
      split; [| split; [| split]].
      * rewrite map_app, Hnames, seq_S, map_app. reflexivity.
      * apply Forall_app. split; [exact Hfull |]. constructor; [| constructor].
        simpl. rewrite !length_app. simpl. repeat split; try assumption; lia.
      * reflexivity.
      * exact slice_positive.
    + unfold written. simpl. rewrite map_app, concat_app. simpl.
      unfold rows at 2. simpl. rewrite Hcomb, !app_nil_r, app_assoc. reflexivity.
    + simpl. lia.
  - injection Hstep as <-. rewrite length_app in Hne. simpl in Hne.
    split; [| split].
    + unfold full_shards_saved. simpl. repeat split; try assumption.
      * rewrite !length_app, Hlen. reflexivity.
      * rewrite length_app. simpl. lia.
    + unfold written. simpl. rewrite Hcomb, app_assoc. reflexivity.
    + simpl. rewrite length_app. simpl. lia.
Qed.

Lemma bin_loop_layout (bs : list (list item)) (w w' : writer) :
  bin_loop BLOCK_SIZE SLICE_SIZE eos_token_id tokenized idx0 w bs = Some w' ->
  full_shards_saved SLICE_SIZE idx0 w ->
  full_shards_saved SLICE_SIZE idx0 w'
  /\ written w' = written w ++ map block bs
  /\ slice_counter w' * SLICE_SIZE + length (out_input_ids w')
     = slice_counter w * SLICE_SIZE + length (out_input_ids w) + length bs.
Proof.
  revert w. induction bs as [|b r IH]; intros w Hloop Hw; simpl in Hloop.
  - injection Hloop as <-. simpl. rewrite app_nil_r.
    split; [exact Hw | split; [reflexivity | lia]].
  - destruct (bin_step BLOCK_SIZE SLICE_SIZE eos_token_id tokenized idx0 w b)
      as [w1|] eqn:Hstep; [| discriminate].
    destruct (bin_step_layout w w1 b Hstep Hw) as (Hw1 & E1 & C1).
    destruct (IH w1 Hloop Hw1) as (Hw' & E' & C').
    split; [exact Hw' | split].
    + rewrite E', E1, <- app_assoc. reflexivity.
    + rewrite C', C1. simpl. lia.
Qed.

End WriterLayout.

Lemma SliceFile_names_distinct (idx0 k : nat) :
  NoDup (map (SliceFile idx0) (seq 0 k))
  /\ ~ In (RestFile idx0) (map (SliceFile idx0) (seq 0 k)).
Proof.
  split.
  - assert (H : forall l : list nat, NoDup l -> NoDup (map (SliceFile idx0) l)).
    { induction 1 as [|c l Hc Hl IH]; simpl; constructor; [| exact IH].
      intros Hin. apply in_map_iff in Hin. destruct Hin as [c' [E Hc']].
      injection E as ->. contradiction. }
    apply H. apply seq_NoDup.
  - intros H. apply in_map_iff in H. destruct H as [c [E _]]. discriminate.
Qed.

Lemma pack_and_save_layout
  (BLOCK_SIZE : Z) (SLICE_SIZE : nat) (eos_token_id : Z)
  (tokenized : list (list Z)) (idx0 : nat) (lengths : list Z)
  (files : list (path * tensor_dict)) :
  0 < SLICE_SIZE ->
  pack_and_save BLOCK_SIZE SLICE_SIZE eos_token_id tokenized idx0 lengths
  = Some files ->
  map fst files
  = map (SliceFile idx0)
      (seq 0 (length (bins (pack BLOCK_SIZE lengths)) / SLICE_SIZE))
    ++ (if Nat.eqb (length (bins (pack BLOCK_SIZE lengths)) mod SLICE_SIZE) 0
        then [] else [RestFile idx0])
  /\ NoDup (map fst files)
  /\ (forall p td,
        In (p, td) files ->
        length (position_ids td) = length (input_ids td)
        /\ same_width (input_ids td) = true
        /\ same_width (position_ids td) = true
        /\ length (input_ids td)
           = if is_rest p
             then length (bins (pack BLOCK_SIZE lengths)) mod SLICE_SIZE
             else SLICE_SIZE)
  /\ concat (map (fun f => rows (snd f)) files)
     = map (build_block BLOCK_SIZE eos_token_id tokenized)
         (bins (pack BLOCK_SIZE lengths)).
Proof.
  intros HS Hsave. unfold pack_and_save in Hsave.
  set (bs := bins (pack BLOCK_SIZE lengths)) in *.
  destruct (bin_loop BLOCK_SIZE SLICE_SIZE eos_token_id tokenized idx0
              (Writer [] [] 0 []) bs) as [w|] eqn:Hloop; [| discriminate].
  assert (H0 : full_shards_saved SLICE_SIZE idx0 (Writer [] [] 0 [])).
  { unfold full_shards_saved. simpl. repeat split; [constructor | exact HS]. }
  destruct (bin_loop_layout BLOCK_SIZE SLICE_SIZE eos_token_id tokenized idx0 HS
              bs _ w Hloop H0) as ((Hnames & Hfull & Hlen & Hlt) & Hwritten & Hcount).
  simpl in Hwritten, Hcount.
  assert (Hdiv : length bs / SLICE_SIZE = slice_counter w).
  { symmetry. apply (Nat.div_unique _ _ _ (length (out_input_ids w))); lia. }
  assert (Hmod : length bs mod SLICE_SIZE = length (out_input_ids w)).
  { symmetry. apply (Nat.mod_unique _ _ (slice_counter w)); lia. }
  destruct (SliceFile_names_distinct idx0 (slice_counter w)) as [Hnd Hnr].
  rewrite Hdiv, Hmod. unfold flush_rest in Hsave. unfold written in Hwritten.
  destruct (out_input_ids w) as [|r rs] eqn:Eo.
  - simpl in Hsave. injection Hsave as <-.
    destruct (out_position_ids w); [| discriminate].
    simpl in Hwritten. rewrite app_nil_r in Hwritten.
    split; [| split; [| split]].
    + rewrite Hnames. simpl. rewrite app_nil_r. reflexivity.
    + rewrite Hnames. exact Hnd.
    + intros p td Hin. rewrite Forall_forall in Hfull.
      destruct (Hfull _ Hin) as (H1 & H2 & H3 & H4). simpl in *.
      assert (Hp : is_rest p = false).
      { apply (in_map fst) in Hin. rewrite Hnames in Hin. simpl in Hin.
        apply in_map_iff in Hin. destruct Hin as [c [<- _]]. reflexivity. }
      rewrite Hp. repeat split; try assumption. lia.
    + exact Hwritten.
  - cbn [length Nat.ltb Nat.leb] in Hsave.
    destruct (stack (r :: rs)) as [i|] eqn:Ei; [| discriminate].
    destruct (stack (out_position_ids w)) as [q|] eqn:Ep; [| discriminate].
    apply stack_some in Ei. destruct Ei as (-> & _ & Hwi).
    apply stack_some in Ep. destruct Ep as (-> & _ & Hwp).
    injection Hsave as <-.
    split; [| split; [| split]].
    + rewrite map_app, Hnames. reflexivity.
    + rewrite map_app, Hnames. simpl.
      apply NoDup_app; [exact Hnd | repeat constructor; intros [] |].
      intros a Ha [<- | []]. contradiction.
    + intros p td Hin. apply in_app_or in Hin. destruct Hin as [Hin | [E | []]].
      * rewrite Forall_forall in Hfull.
        destruct (Hfull _ Hin) as (H1 & H2 & H3 & H4). simpl in *.
        assert (Hp : is_rest p = false).
        { apply (in_map fst) in Hin. rewrite Hnames in Hin. simpl in Hin.
          apply in_map_iff in Hin. destruct Hin as [c [<- _]]. reflexivity. }
        rewrite Hp. repeat split; try assumption. lia.
      * injection E as <- <-. simpl. repeat split; try assumption.
        symmetry. exact Hlen.
    + rewrite map_app, concat_app. simpl. rewrite app_nil_r.
      unfold rows at 2. simpl. exact Hwritten.
Qed.

(** X8: when the Packer's writes succeed, the [n] Blocks of the batch are
    saved in bin order in [n / SLICE_SIZE] full shards, numbered
    0, 1, 2, ... in the order written, each of exactly SLICE_SIZE Blocks,
    followed by one rest shard with the [n mod SLICE_SIZE] remaining
    Blocks when that number is not 0 (so an empty batch writes no file
    and a rest shard is never empty and never full); all file names
    differ, and in every file the token tensor and the position tensor
    are rectangular with the same number of rows. *)
Theorem packer_shard_layout
  (BLOCK_SIZE : Z) (SLICE_SIZE : nat) (eos_token_id : Z)
  (tokenized : list (list Z)) (idx0 : nat) (lengths : list Z)
  (files : list (path * tensor_dict)) :
  0 < SLICE_SIZE ->
  pack_and_save BLOCK_SIZE SLICE_SIZE eos_token_id tokenized idx0 lengths
  = Some files ->
  map fst files
  = map (SliceFile idx0)
      (seq 0 (length (bins (pack BLOCK_SIZE lengths)) / SLICE_SIZE))
    ++ (if Nat.eqb (length (bins (pack BLOCK_SIZE lengths)) mod SLICE_SIZE) 0
        then [] else [RestFile idx0])
  /\ NoDup (map fst files)
  /\ (forall p td,
        In (p, td) files ->
        length (position_ids td) = length (input_ids td)
        /\ same_width (input_ids td) = true
        /\ same_width (position_ids td) = true
        /\ length (input_ids td)
           = if is_rest p
             then length (bins (pack BLOCK_SIZE lengths)) mod SLICE_SIZE
             else SLICE_SIZE)
  /\ concat (map (fun f => rows (snd f)) files)
     = map (build_block BLOCK_SIZE eos_token_id tokenized)
         (bins (pack BLOCK_SIZE lengths)).
Proof.
  intros HS Hsave.
  exact (pack_and_save_layout BLOCK_SIZE SLICE_SIZE eos_token_id tokenized idx0
           lengths files HS Hsave).
Qed.

Lemma packer_shard_layout_witness :
  exists files,
    pack_and_save 8 1 0 [[1; 2; 3; 4; 0]; [5; 6; 0]; [7; 8; 0]; [9; 0]]%Z 7
      [5; 3; 3; 2]%Z = Some files
    /\ map fst files = [SliceFile 7 0; SliceFile 7 1].
Proof.
  eexists. split; [vm_compute; reflexivity |].
  exact (proj1 (packer_shard_layout 8 1 0
                  [[1; 2; 3; 4; 0]; [5; 6; 0]; [7; 8; 0]; [9; 0]]%Z 7
                  [5; 3; 3; 2]%Z _ (le_n 1) eq_refl)).
Defined.

(** ** When [torch.stack] raises *)

Lemma same_width_lengths (tensors : list (list Z)) (x y : list Z) :
  same_width tensors = true -> In x tensors -> In y tensors ->
  length x = length y.
Proof.
  destruct tensors as [|r rs]; [intros _ [] |]. simpl. intros H.
  assert (Hall : forall z, In z (r :: rs) -> length z = length r).
  { intros z [<- | Hz]; [reflexivity |].
    rewrite forallb_forall in H. apply Nat.eqb_eq. apply H. exact Hz. }
  intros Hx Hy. rewrite (Hall x Hx), (Hall y Hy). reflexivity.
Qed.

Lemma bin_loop_no_flush (BLOCK_SIZE : Z) (SLICE_SIZE : nat) (eos_token_id : Z)
  (tokenized : list (list Z)) (idx0 : nat) (bs : list (list item)) (w : writer) :
  length (out_input_ids w) + length bs < SLICE_SIZE ->
  bin_loop BLOCK_SIZE SLICE_SIZE eos_token_id tokenized idx0 w bs
  = Some (Writer
            (out_input_ids w
               ++ map (fun b => fst (build_block BLOCK_SIZE eos_token_id tokenized b)) bs)
            (out_position_ids w
               ++ map (fun b => snd (build_block BLOCK_SIZE eos_token_id tokenized b)) bs)
            (slice_counter w) (saved w)).
Proof.
  revert w. induction bs as [|b r IH]; intros w Hlt; simpl.
  - rewrite !app_nil_r. destruct w; reflexivity.
  - unfold bin_step. cbv zeta.
    set (blk := build_block BLOCK_SIZE eos_token_id tokenized b).
    destruct (Nat.eqb_spec (length (out_input_ids w ++ [fst blk])) SLICE_SIZE)
      as [Heq | Hne].
    + rewrite length_app in Heq. simpl in Heq, Hlt. lia.
    + rewrite IH.
      * cbn [out_input_ids out_position_ids slice_counter saved].
        rewrite <- !app_assoc. reflexivity.
      * cbn [out_input_ids]. rewrite length_app. simpl in *. lia.
Qed.

Lemma pack_bins_count (BLOCK_SIZE : Z) (lengths : list Z) :
  length (bins (pack BLOCK_SIZE lengths)) <= length lengths.
Proof.
  destruct (pack_refines BLOCK_SIZE lengths) as (st & E & Hsteps).
  rewrite E. unfold unzip. cbn [bins].
  rewrite <- (length_enumerate_from 0 lengths),
    <- (Permutation_length (indexed_lengths_perm lengths)),
    <- (app_nil_l (indexed_lengths lengths)).
  change (@nil item) with (concat (map fst (@nil (list item * Z)))).
  rewrite <- (Permutation_length (first_fit_steps_members _ _ _ _ Hsteps)).
  apply length_concat_nonempty. apply Forall_map.
  apply (first_fit_steps_keep (fun bs => fst bs <> []) BLOCK_SIZE _ [] st Hsteps);
    [| constructor].
  intros it _. simpl. split; [| discriminate].
  intros b s _ _ H. apply app_eq_nil in H. destruct H as [_ H]. discriminate.
Qed.

(** The bin of a sequence of at most BLOCK_SIZE tokens is not over
    capacity. *)
Lemma fitting_member_bin (BLOCK_SIZE : Z) (tokenized : list (list Z))
  (j : nat) (seq : list Z) :
  nth_error tokenized j = Some seq -> (len seq <= BLOCK_SIZE)%Z ->
  exists b, In b (bins (pack BLOCK_SIZE (map len tokenized)))
            /\ In (len seq, j) b /\ (occupied b <= BLOCK_SIZE)%Z.
Proof.
  intros Hj Hfit.
  destruct (pack_refines BLOCK_SIZE (map len tokenized)) as (st & E & Hsteps).
  rewrite E. unfold unzip. cbn [bins].
  pose (P := fun bs : list item * Z =>
               snd bs = (BLOCK_SIZE - occupied (fst bs))%Z
               /\ ((snd bs < 0)%Z ->
                   exists it : item, fst bs = [it] /\ (BLOCK_SIZE < fst it)%Z)).
  assert (HP : Forall P st).
  { apply (first_fit_steps_keep P BLOCK_SIZE _ [] st Hsteps); [| constructor].
    intros it Hit. pose proof (indexed_consistent tokenized it Hit) as Hc.
    assert (Hpos : (0 <= fst it)%Z) by (rewrite Hc; apply len_nonneg).
    unfold P. simpl. split.
    - intros b s [Hs Hneg] Hle. rewrite occupied_app. split; [lia |].
      intros Hlt. exfalso. lia.
    - unfold occupied. simpl. split; [lia |].
      intros Hlt. exists it. split; [reflexivity | lia]. }
  assert (Hin : In (len seq, j) (concat (map fst st))).
  { apply (Permutation_in _ (Permutation_sym (first_fit_steps_members _ _ _ _ Hsteps))).
    simpl. apply (Permutation_in _ (Permutation_sym (indexed_lengths_perm _))).
    apply enumerate_from_spec. rewrite Nat.sub_0_r, nth_error_map, Hj.
    split; [lia | reflexivity]. }
  apply in_concat in Hin. destruct Hin as (b & Hb & Hmem).
  exists b. split; [exact Hb | split; [exact Hmem |]].
  apply in_map_iff in Hb. destruct Hb as [[b' s] [<- Hb]]. simpl in *.
  rewrite Forall_forall in HP. destruct (HP _ Hb) as [Hs Hneg]. simpl in *.
  destruct (Z.lt_ge_cases s 0) as [Hlt | Hge]; [| lia].
  destruct (Hneg Hlt) as (it & -> & Hlong).
  destruct Hmem as [-> | []]. simpl in Hlong. lia.
Qed.

(** X10: the error a sequence longer than BLOCK_SIZE does cause.  When a
    batch of fewer than SLICE_SIZE sub-sequences, all of which then go to
    the rest shard, holds a sequence longer than BLOCK_SIZE (of at most
    32768 tokens) together with a sequence of at most BLOCK_SIZE tokens,
    their Blocks differ in length and [torch.stack] raises: the call ends
    with an exception instead of writing the rest shard. *)
Theorem mixed_batch_raises
  (BLOCK_SIZE : Z) (SLICE_SIZE : nat) (eos_token_id : Z)
  (tokenized : list (list Z)) (idx0 i j : nat) (seq seq' : list Z) :
  length tokenized < SLICE_SIZE ->
  nth_error tokenized i = Some seq ->
  (BLOCK_SIZE < len seq)%Z ->
  (len seq <= 32768)%Z ->
  nth_error tokenized j = Some seq' ->
  (len seq' <= BLOCK_SIZE)%Z ->
  pack_and_save BLOCK_SIZE SLICE_SIZE eos_token_id tokenized idx0
    (map len tokenized) = None.
Proof.
  intros Hsmall Hi Hlong _ Hj Hfit.
  destruct (overlong_alone BLOCK_SIZE tokenized i seq Hi Hlong) as [Hb1 _].
  pose proof (overlong_block BLOCK_SIZE eos_token_id tokenized i seq Hi Hlong) as Hblk1.
  destruct (fitting_member_bin BLOCK_SIZE tokenized j seq' Hj Hfit)
    as (b2 & Hb2 & Hmem & Hocc).
  assert (Hcons : Forall (consistent tokenized) b2).
  { apply Forall_forall. intros it Hit.
    apply enumerated_consistent. eapply pack_members; eassumption. }
  destruct (block_shape BLOCK_SIZE eos_token_id tokenized b2 Hcons Hocc)
    as (Hw2 & _).
  pose proof (pack_bins_count BLOCK_SIZE (map len tokenized)) as Hcount.
  rewrite length_map in Hcount.
  unfold pack_and_save.
  set (bs := bins (pack BLOCK_SIZE (map len tokenized))) in *.
  rewrite bin_loop_no_flush by (simpl; lia).
  cbn [out_input_ids out_position_ids app].
  unfold flush_rest. cbn [out_input_ids out_position_ids saved].
  set (ids := map (fun b => fst (build_block BLOCK_SIZE eos_token_id tokenized b)) bs).
  assert (H1 : In seq ids).
  { unfold ids. apply in_map_iff. exists [(len seq, i)].
    rewrite Hblk1. split; [reflexivity | exact Hb1]. }
  assert (H2 : In (fst (build_block BLOCK_SIZE eos_token_id tokenized b2)) ids).
  { unfold ids. apply in_map_iff. exists b2. split; [reflexivity | exact Hb2]. }
  assert (Hnot : same_width ids = false).
  { destruct (same_width ids) eqn:E; [| reflexivity].
    pose proof (same_width_lengths ids _ _ E H1 H2) as Hsame.
    unfold len in Hw2, Hlong. lia. }
  assert (Hstack : stack ids = None).
  { unfold stack. rewrite Hnot. destruct ids; reflexivity. }
  rewrite Hstack. destruct ids as [|r rs]; [destruct H1 |]. reflexivity.
Qed.

Lemma mixed_batch_raises_witness :
  pack_and_save 4 5 0 [[1; 2; 0]; [1; 2; 3; 4; 5; 0]]%Z 7
    (map len [[1; 2; 0]; [1; 2; 3; 4; 5; 0]]%Z) = None.
Proof.
  assert (H1 : (len [1; 2; 3; 4; 5; 0]%Z <= 32768)%Z) by (vm_compute; discriminate).
  assert (H2 : (len [1; 2; 0]%Z <= 4)%Z) by (vm_compute; discriminate).
  exact (mixed_batch_raises 4 5 0 [[1; 2; 0]; [1; 2; 3; 4; 5; 0]]%Z 7 1 0
           [1; 2; 3; 4; 5; 0]%Z [1; 2; 0]%Z
           (le_S _ _ (le_S _ _ (le_n 3))) eq_refl eq_refl H1 eq_refl H2).
Defined.

(** * From the Packer to the Reslicer *)

Lemma Forall_combine {A B : Type} (P : A -> Prop) (Q : B -> Prop)
  (l : list A) (m : list B) :
  length l = length m ->
  Forall (fun pr : A * B => P (fst pr) /\ Q (snd pr)) (combine l m) ->
  Forall P l /\ Forall Q m.
Proof.
  revert m. induction l as [|a r IH]; intros [|b m'] Hlen H; simpl in *;
    try discriminate.
  - split; constructor.
  - inversion H as [|? ? [Ha Hb] Hr]; subst.
    destruct (IH m') as [H1 H2]; [lia | exact Hr |].
    split; constructor; assumption.
Qed.

Lemma Forall_of_concat {A : Type} (P : A -> Prop) (ls : list (list A)) (l : list A) :
  Forall P (concat ls) -> In l ls -> Forall P l.
Proof.
  intros H Hin. apply Forall_forall. intros x Hx.
  rewrite Forall_forall in H. apply H. apply in_concat. exists l. split; assumption.
Qed.

(** The rest shard of one call of [map_to_batch] is what the Reslicer
    expects of a leftover shard. *)
Lemma rest_shard_contract (BLOCK_SIZE : Z) (SLICE_SIZE : nat)
  (eos_token_id split_value : Z) (raw_tokenized : list (list Z)) (idx0 i : nat)
  (files : list (path * tensor_dict)) (td : tensor_dict) :
  (1 <= BLOCK_SIZE)%Z -> 0 < SLICE_SIZE ->
  map_to_batch BLOCK_SIZE SLICE_SIZE eos_token_id split_value raw_tokenized idx0
  = Some files ->
  In (RestFile i, td) files ->
  shard_ok (Z.to_nat BLOCK_SIZE) td
  /\ 0 < length (input_ids td) < SLICE_SIZE.
Proof.
  intros HB HS Hsave Hin.
  destruct (map_to_batch_saves BLOCK_SIZE SLICE_SIZE eos_token_id split_value
              raw_tokenized idx0 HB) as (files' & E & Hwide).
  rewrite Hsave in E. injection E as <-.
  unfold map_to_batch in Hsave.
  destruct (pack_and_save_layout _ _ _ _ _ _ _ HS Hsave)
    as (Hnames & _ & Hfiles & _).
  destruct (Hfiles _ _ Hin) as (Hlen & _ & _ & Hrows). simpl in Hrows.
  set (n := length (bins (pack BLOCK_SIZE
                            (lengths_of BLOCK_SIZE eos_token_id split_value
                               raw_tokenized)))) in *.
  assert (Hwd : Forall (fun blk : list Z * list Z =>
                          len (fst blk) = BLOCK_SIZE /\ len (snd blk) = BLOCK_SIZE)
                  (rows td)).
  { apply (Forall_of_concat _ _ _ Hwide).
    apply in_map_iff. exists (RestFile i, td). split; [reflexivity | exact Hin]. }
  unfold rows in Hwd.
  assert (Hwd' : Forall (fun pr : list Z * list Z =>
                           length (fst pr) = Z.to_nat BLOCK_SIZE
                           /\ length (snd pr) = Z.to_nat BLOCK_SIZE)
                   (combine (input_ids td) (position_ids td))).
  { eapply Forall_impl; [| exact Hwd]. unfold len. intros pr [H1 H2]. lia. }
  pose proof (Forall_combine (fun r : list Z => length r = Z.to_nat BLOCK_SIZE)
                (fun r : list Z => length r = Z.to_nat BLOCK_SIZE)
                (input_ids td) (position_ids td) (eq_sym Hlen) Hwd') as Hboth.
  split; [split; [symmetry; exact Hlen | exact Hboth] |].
  rewrite Hrows. split; [| apply Nat.mod_upper_bound; lia].
  apply (in_map fst) in Hin. rewrite Hnames in Hin. simpl in Hin.
  apply in_app_or in Hin. destruct Hin as [Hin | Hin].
  - apply in_map_iff in Hin. destruct Hin as [c [E _]]. discriminate.
  - destruct (Nat.eqb_spec (n mod SLICE_SIZE) 0); [destruct Hin | lia].
Qed.

Lemma pending_width (width : nat) (d : disk) (files : list path) :
  leftovers_ok width d files ->
  Forall (fun r => length r = width) (pending d files input_ids)
  /\ Forall (fun r => length r = width) (pending d files position_ids).
Proof.
  intros [_ Hfiles]. unfold pending.
  assert (H : forall f, In f (rev files) ->
            Forall (fun r => length r = width)
              match d f with Some td => input_ids td | None => [] end
            /\ Forall (fun r => length r = width)
                 match d f with Some td => position_ids td | None => [] end).
  { intros f Hf. apply in_rev in Hf.
    destruct (Hfiles f Hf) as (_ & td & -> & _ & H1 & H2). split; assumption. }
  induction (rev files) as [|f r IH]; simpl; [split; constructor |].
  destruct IH as [IH1 IH2]; [intros g Hg; apply H; right; exact Hg |].
  destruct (H f (or_introl eq_refl)) as [H1 H2].
  split; apply Forall_app; split; assumption.
Qed.

(** X9: the Packer and the Reslicer compose.  For a capacity of at least
    one token and a positive SLICE_SIZE, the rest shards written by calls
    of [map_to_batch] for distinct partitions are distinct leftover
    shards of fewer than SLICE_SIZE Blocks of BLOCK_SIZE entries; run on
    them, [process_rest] returns without an exception, every shard it
    writes holds exactly SLICE_SIZE Blocks of BLOCK_SIZE entries in both
    tensors, and fewer than SLICE_SIZE Blocks are left unwritten. *)
Theorem packer_rest_shards_reslice
  (BLOCK_SIZE : Z) (SLICE_SIZE : nat) (eos_token_id split_value : Z)
  (batch : nat -> list (list Z)) (idxs : list nat) (d : disk) :
  (1 <= BLOCK_SIZE)%Z ->
  0 < SLICE_SIZE ->
  NoDup idxs ->
  (forall i, In i idxs ->
     exists files td,
       map_to_batch BLOCK_SIZE SLICE_SIZE eos_token_id split_value (batch i) i
       = Some files
       /\ In (RestFile i, td) files
       /\ d (RestFile i) = Some td) ->
  leftovers_ok (Z.to_nat BLOCK_SIZE) d (map RestFile idxs)
  /\ small_leftovers SLICE_SIZE d (map RestFile idxs)
  /\ exists s,
       process_rest SLICE_SIZE d (map RestFile idxs) = Return s
       /\ Forall (fun td =>
                    length (input_ids td) = SLICE_SIZE
                    /\ length (position_ids td) = SLICE_SIZE
                    /\ Forall (fun r => len r = BLOCK_SIZE) (input_ids td)
                    /\ Forall (fun r => len r = BLOCK_SIZE) (position_ids td))
            (emitted s)
       /\ buffer_length s < SLICE_SIZE.
Proof.
  intros HB HS Hnd Hdisk.
  assert (Hfile : forall f, In f (map RestFile idxs) ->
            exists td, d f = Some td
                       /\ shard_ok (Z.to_nat BLOCK_SIZE) td
                       /\ length (input_ids td) < SLICE_SIZE).
  { intros f Hf. apply in_map_iff in Hf. destruct Hf as [i [<- Hi]].
    destruct (Hdisk i Hi) as (files & td & Hsave & Hin & Hd).
    destruct (rest_shard_contract _ _ _ _ _ _ _ _ _ HB HS Hsave Hin) as [Hok [_ Hlt]].
    exists td. auto. }
  assert (Hok : leftovers_ok (Z.to_nat BLOCK_SIZE) d (map RestFile idxs)).
  { split.
    - clear Hdisk Hfile. induction Hnd as [|i l Hi Hl IH]; simpl; constructor; [| exact IH].
      intros Hin. apply in_map_iff in Hin. destruct Hin as [k [E Hk]].
      injection E as ->. contradiction.
    - intros f Hf. split.
      + apply in_map_iff in Hf. destruct Hf as [i [<- _]]. reflexivity.
      + destruct (Hfile f Hf) as (td & Hd & Hs & _). exists td. auto. }
  split; [exact Hok | split].
  - intros f td Hf Hd. destruct (Hfile f Hf) as (td' & Hd' & _ & Hlt).
    rewrite Hd in Hd'. injection Hd' as <-. exact Hlt.
  - destruct (process_rest_returns SLICE_SIZE (Z.to_nat BLOCK_SIZE) d
                (map RestFile idxs) HS Hok) as (s & Hrun & _ & Hinv & Hpc & _).
    destruct Hinv as [_ _ _ _ _ _ _ Hik Hpk Hfull Hlt _ _ _ _ _].
    exists s. split; [exact Hrun | split; [| apply Hlt; exact Hpc]].
    destruct (pending_width _ _ _ Hok) as [Hw1 Hw2].
    rewrite <- Hik in Hw1. rewrite <- Hpk in Hw2.
    apply Forall_app in Hw1, Hw2. destruct Hw1 as [Hw1 _]. destruct Hw2 as [Hw2 _].
    apply Forall_forall. intros td Htd. rewrite Forall_forall in Hfull.
    destruct (Hfull td Htd) as [H1 H2].
    assert (Hlen : forall rs : list (list Z),
              Forall (fun r => length r = Z.to_nat BLOCK_SIZE) rs ->
              Forall (fun r => len r = BLOCK_SIZE) rs).
    { intros rs H. eapply Forall_impl; [| exact H]. unfold len. intros r Hr. lia. }
    repeat split; try assumption; apply Hlen.
    + apply (Forall_of_concat _ _ _ Hw1). apply in_map. exact Htd.
    + apply (Forall_of_concat _ _ _ Hw2). apply in_map. exact Htd.
Qed.

Lemma packer_rest_shards_reslice_witness :
  exists s, process_rest 2 one_text_disk (map RestFile [0; 1]) = Return s
            /\ buffer_length s < 2.
Proof.
  assert (HB : (1 <= 8)%Z) by (vm_compute; discriminate).
  assert (Hnd : NoDup [0; 1]).
  { constructor; [intros [E | []]; discriminate E |].
    constructor; [intros [] | constructor]. }
  assert (Hdisk : forall i, In i [0; 1] ->
            exists files td,
              map_to_batch 8 2 0 13 ((fun _ => [[1; 2; 3]%Z]) i) i = Some files
              /\ In (RestFile i, td) files
              /\ one_text_disk (RestFile i) = Some td).
  { intros i [<- | [<- | []]]; eexists; eexists;
      (split; [vm_compute; reflexivity |]); (split; [left; reflexivity | reflexivity]). }
  destruct (packer_rest_shards_reslice 8 2 0 13 (fun _ => [[1; 2; 3]%Z]) [0; 1]
              one_text_disk HB (le_S _ _ (le_n 1)) Hnd Hdisk)
    as (_ & _ & s & Hrun & _ & Hlt).
  exists s. split; [exact Hrun | exact Hlt].
Defined.

(** * Further properties of the Reslicer *)

Lemma chunk_window {A : Type} (size : nat) (chunks : list (list A))
  (rest c : list A) (k : nat) :
  Forall (fun ch => length ch = size) chunks ->
  nth_error chunks k = Some c ->
  c = upto size (from (k * size) (concat chunks ++ rest)).
Proof.
  unfold upto, from. intros Hall. revert k.
  induction Hall as [|a r Ha Hr IH]; intros k Hk; [destruct k; discriminate |].
  simpl concat. rewrite <- app_assoc. destruct k as [|k]; simpl in Hk.
  - injection Hk as <-. simpl. rewrite firstn_app, Ha, Nat.sub_diag.
    simpl. rewrite app_nil_r. rewrite <- Ha. apply eq_sym, firstn_all.
  - rewrite (IH k Hk) at 1. f_equal.
    rewrite (skipn_app (S k * size) a), Ha.
    replace (skipn (S k * size) a) with (@nil A)
      by (symmetry; apply skipn_all2; simpl; lia).
    simpl. f_equal. lia.
Qed.

(** X11: output shard number [c] of the Reslicer is a window of the
    stream of Blocks read from the leftover shards in the order consumed:
    it holds Blocks number c * SLICE_SIZE to c * SLICE_SIZE + SLICE_SIZE - 1
    of that stream, token rows and position rows alike, and it is the
    shard found on disk under counter [c] when the run returns. *)
Theorem reslicer_shard_is_window
  (SLICE_SIZE width : nat) (d : disk) (files : list path)
  (s : reslicer) (c : nat) (td : tensor_dict) :
  0 < SLICE_SIZE ->
  leftovers_ok width d files ->
  process_rest SLICE_SIZE d files = Return s ->
  nth_error (emitted s) c = Some td ->
  input_ids td
  = upto SLICE_SIZE (from (c * SLICE_SIZE) (pending d files input_ids))
  /\ position_ids td
     = upto SLICE_SIZE (from (c * SLICE_SIZE) (pending d files position_ids))
  /\ fs s (ResliceFile c) = Some td.
Proof.
  intros HS Hok Hrun Hc.
  destruct (process_rest_returns SLICE_SIZE width d files HS Hok)
    as (s' & Hrun' & _ & Hinv & _ & _).
  rewrite Hrun in Hrun'. injection Hrun' as <-.
  destruct Hinv as [_ _ _ _ _ _ _ Hik Hpk Hfull _ Hcnt Hsh _ _ _].
  split; [| split].
  - rewrite <- Hik. apply chunk_window.
    + apply Forall_map. eapply Forall_impl; [| exact Hfull]. intros x [H _]. exact H.
    + apply map_nth_error. exact Hc.
  - rewrite <- Hpk. apply chunk_window.
    + apply Forall_map. eapply Forall_impl; [| exact Hfull]. intros x [_ H]. exact H.
    + apply map_nth_error. exact Hc.
  - rewrite Hsh; [exact Hc |]. rewrite Hcnt. apply nth_error_Some. congruence.
Qed.

Lemma reslicer_shard_is_window_witness :
  exists s td,
    process_rest 3 scenario2_disk scenario2_files = Return s
    /\ nth_error (emitted s) 1 = Some td
    /\ input_ids td
       = upto 3 (from (1 * 3) (pending scenario2_disk scenario2_files input_ids)).
Proof.
  assert (E : exists s, process_rest 3 scenario2_disk scenario2_files = Return s
                        /\ exists td, nth_error (emitted s) 1 = Some td).
  { vm_compute. eexists. split; [reflexivity |]. eexists. reflexivity. }
  destruct E as (s & E & td & Htd).
  exists s, td. split; [exact E | split; [exact Htd |]].
  exact (proj1 (reslicer_shard_is_window 3 2 scenario2_disk scenario2_files s 1 td
                  (le_S _ _ (le_S _ _ (le_n 1))) scenario2_leftovers E Htd)).
Defined.

(** With [SLICE_SIZE = 0] the test of the inner loop never fails. *)
Lemma zero_slice_loops (width n : nat) (s : reslicer) (file : path) :
  pc s = AtSlices file ->
  Forall (fun r => length r = width) (concat (input_buffer s)) ->
  Forall (fun r => length r = width) (concat (pos_buffer s)) ->
  Forall (fun td => input_ids td = [] /\ position_ids td = []) (emitted s) ->
  exists s',
    run 0 n s = Continue s'
    /\ pc s' = AtSlices file
    /\ counter s' = counter s + n
    /\ length (emitted s') = length (emitted s) + n
    /\ Forall (fun td => input_ids td = [] /\ position_ids td = []) (emitted s').
Proof.
  revert s. induction n as [|n IH]; intros s Hpc Hiw Hpw Hem; simpl.
  - exists s. repeat split; try assumption; lia.
  - unfold step. rewrite Hpc. unfold slice_or_remove. cbn [Nat.leb].
    rewrite (cat_same_width width _ Hiw), (cat_same_width width _ Hpw).
    cbv zeta.
    match goal with
    | |- context [run 0 n ?s1] => destruct (IH s1) as (s' & Hrun & Hpc' & Hc & Hl & He)
    end.
    + reflexivity.
    + cbn [input_buffer]. rewrite concat_single. apply Forall_from. exact Hiw.
    + cbn [pos_buffer]. rewrite concat_single. apply Forall_from. exact Hpw.
    + cbn [emitted]. apply Forall_app. split; [exact Hem |].
      constructor; [split; reflexivity | constructor].
    + exists s'. cbn [counter emitted] in Hc, Hl. rewrite length_app in Hl.
      simpl in Hl. repeat split; try assumption; lia.
Qed.

(** X12: the positive SLICE_SIZE is needed.  With [SLICE_SIZE = 0] and at
    least one leftover shard, [process_rest] never returns and never
    raises: after reading the first file it stays in the inner loop,
    writing one more empty shard at every pass. *)
Theorem zero_slice_size_never_returns
  (width : nat) (d : disk) (files : list path) (n : nat) :
  files <> [] ->
  leftovers_ok width d files ->
  exists s,
    run 0 (S n) (start d files) = Continue s
    /\ counter s = n
    /\ length (emitted s) = n
    /\ Forall (fun td => input_ids td = [] /\ position_ids td = []) (emitted s).
Proof.
  intros Hne [_ Hfiles]. unfold start. cbn [run]. unfold step. cbn [pc].
  unfold take_file. cbn [all_files fs input_buffer pos_buffer buffer_length
                          counter emitted].
  pose proof (pop_spec files) as Hpop.
  destruct (pop files) as [[file rest]|]; [| contradiction].
  destruct (Hfiles file) as (_ & td & Hd & _ & Hw1 & Hw2).
  { rewrite Hpop. apply in_or_app. right. left. reflexivity. }
  rewrite Hd. cbv zeta.
  match goal with
  | |- context [run 0 n ?s1] =>
      destruct (zero_slice_loops width n s1 file) as (s' & Hrun & _ & Hc & Hl & He)
  end.
  - reflexivity.
  - cbn [input_buffer]. simpl. rewrite app_nil_r. exact Hw1.
  - cbn [pos_buffer]. simpl. rewrite app_nil_r. exact Hw2.
  - constructor.
  - exists s'. cbn [counter emitted] in Hc, Hl. simpl in Hc, Hl.
    repeat split; assumption.
Qed.

Lemma zero_slice_size_never_returns_witness :
  exists s, run 0 (S 5) (start scenario2_disk scenario2_files) = Continue s
            /\ counter s = 5.
Proof.
  assert (Hne : scenario2_files <> []) by discriminate.
  destruct (zero_slice_size_never_returns 2 scenario2_disk scenario2_files 5
              Hne scenario2_leftovers) as (s & Hrun & Hc & _).
  exists s. split; [exact Hrun | exact Hc].
Defined.

(** X13: at every state of a run, no Block is in danger: each Block read
    or to be read is in a shard already written, in the buffer, or in a
    file that has not been popped yet, in stream order; a file still
    listed or being drained is still on disk, with its original content
    if still listed; so a leftover file that is gone from disk has been
    popped and drained before; and every shard written so far is on disk
    under its counter. *)
Theorem reslicer_removes_only_after_incorporation
  (SLICE_SIZE width : nat) (d : disk) (files : list path) (s : reslicer) :
  0 < SLICE_SIZE ->
  leftovers_ok width d files ->
  reaches SLICE_SIZE (start d files) s ->
  concat (map input_ids (emitted s)) ++ concat (input_buffer s)
    ++ pending d (all_files s) input_ids
  = pending d files input_ids
  /\ concat (map position_ids (emitted s)) ++ concat (pos_buffer s)
       ++ pending d (all_files s) position_ids
     = pending d files position_ids
  /\ (forall f, In f (all_files s) -> fs s f = d f)
  /\ (forall f, pc s = AtSlices f -> fs s f <> None)
  /\ (forall f, In f files -> fs s f = None ->
                ~ In f (all_files s) /\ pc s <> AtSlices f)
  /\ (forall c, c < counter s -> fs s (ResliceFile c) = nth_error (emitted s) c).
Proof.
  intros HS Hok Hr.
  pose proof (reaches_keeps SLICE_SIZE width d files HS Hok _ _
                (start_reslicing SLICE_SIZE width d files HS) Hr) as Hinv.
  destruct Hinv as [Hl Hd Hdr _ _ _ _ Hik Hpk _ _ _ Hsh _ _ _].
  split; [exact Hik | split; [exact Hpk | split; [exact Hd | split; [| split]]]].
  - intros f Hpc. rewrite Hpc in Hdr. tauto.
  - intros f Hf Hnone. split.
    + intros Hin. rewrite (Hd f Hin) in Hnone.
      destruct Hok as [_ Hfiles]. destruct (Hfiles f Hf) as (_ & td & E & _).
      congruence.
    + intros Hpc. rewrite Hpc in Hdr. tauto.
  - exact Hsh.
Qed.

Lemma run_reaches (SLICE_SIZE n : nat) (s s' : reslicer) :
  run SLICE_SIZE n s = Continue s' -> reaches SLICE_SIZE s s'.
Proof.
  revert s. induction n as [|n IH]; intros s Hrun; simpl in Hrun.
  - injection Hrun as <-. constructor.
  - destruct (step SLICE_SIZE s) as [s1 | s1 |] eqn:Hstep; try discriminate.
    assert (H1 : reaches SLICE_SIZE s s1)
      by (econstructor; [constructor | exact Hstep]).
    specialize (IH s1 Hrun). clear Hrun Hstep.
    induction IH as [| sa sb Hr IHr Hs]; [exact H1 |].
    econstructor; [exact IHr | exact Hs].
Qed.

(** In scenario 2, three steps into the run: shard A has been read, one
    shard of 3 Blocks written, and A removed with its fourth Block in the
    buffer. *)
Lemma reslicer_removes_only_after_incorporation_witness :
  exists s,
    run 3 3 (start scenario2_disk scenario2_files) = Continue s
    /\ fs s (RestFile 0) = None
    /\ map input_ids (emitted s) = [[[1; 1]; [2; 2]; [3; 3]]]%Z
    /\ input_buffer s = [[[4; 4]]]%Z
    /\ ~ In (RestFile 0) (all_files s)
    /\ pc s <> AtSlices (RestFile 0).
Proof.
  assert (E : exists s,
            run 3 3 (start scenario2_disk scenario2_files) = Continue s
            /\ fs s (RestFile 0) = None
            /\ map input_ids (emitted s) = [[[1; 1]; [2; 2]; [3; 3]]]%Z
            /\ input_buffer s = [[[4; 4]]]%Z).
  { vm_compute. eexists. split; [reflexivity |]. repeat split. }
  destruct E as (s & Hrun & Hgone & Hem & Hbuf).
  assert (Hin : In (RestFile 0) scenario2_files) by (right; left; reflexivity).
  exists s. split; [exact Hrun | split; [exact Hgone | split; [exact Hem |]]].
  split; [exact Hbuf |].
  exact (proj1 (proj2 (proj2 (proj2 (proj2
           (reslicer_removes_only_after_incorporation 3 2 scenario2_disk
              scenario2_files s (le_S _ _ (le_S _ _ (le_n 1))) scenario2_leftovers
              (run_reaches 3 3 _ s Hrun))))))
           (RestFile 0) Hin Hgone).
Defined.
